(** * Block-sync reactor: a shallow embedding and its verified properties

    The development follows the Go sources:
    - [internal/blocksync/reactor.go]: the reactor, its message handlers,
      the driver loop [poolRoutine] and the adjacent verifier;
    - the generated protobuf code of [cometbft/blocksync/v2/types.proto]
      ([BlockResponse] and [Message] with their Marshal, Size and
      Unmarshal methods).

    Conventions.  A Go [int64] is a [Z] with its wrap-around written out
    ([wrap64]); a [[]byte] is a [list Z] of values below 256, so that a nil
    slice and an empty slice are the same value, as they are for
    [bytes.Equal] and [len]; a pointer that may be nil is an [option]; a Go
    [error] is a value of the inductive type [error], [None] standing for
    the nil error. *)

From Stdlib Require Import ZArith Lia.
From stdpp Require Import base list strings.

Local Open Scope string_scope.
Local Open Scope list_scope.
Local Open Scope Z_scope.

Abbreviation bytes := (list Z).

(** ** Machine integers *)

Module Int.

Definition two63 : Z := 2 ^ 63.
Definition two64 : Z := 2 ^ 64.
Definition MaxInt64 : Z := two63 - 1.
Definition MinInt64 : Z := - two63.

(** The value of an [int64] (or 64-bit [int]) after an operation whose
    mathematical result is [z]. *)
Definition wrap64 (z : Z) : Z := (z + two63) mod two64 - two63.

(** The value of a [uint64] after an operation whose mathematical result
    is [z]. *)
Definition wrapu64 (z : Z) : Z := z mod two64.

Definition in_int64 (z : Z) : Prop := MinInt64 <= z <= MaxInt64.
Definition in_uint64 (z : Z) : Prop := 0 <= z < two64.

End Int.

(** ** Go errors and panic values *)

(** Arguments of a format string are kept unrendered, next to the
    format.  The errors are those the reactor builds or passes on:
    [errorString] is the value of [errors.New] and of [fmt.Errorf]
    without a [%w] verb; [wrapError] is the value of [fmt.Errorf] with
    one [%w] verb; [ErrInvalidHeader] is [light.ErrInvalidHeader]; the
    two context errors are the sentinels of package [context];
    [externalError] is an error value of a collaborator (transport,
    codec, executor).  A panic value is the string of a [panic] of the
    reactor itself, a run-time error, or the value a collaborator
    panicked with. *)
Inductive fmtarg :=
| ArgInt (z : Z)
| ArgBytes (b : bytes)
| ArgTime (t : Z)
| ArgString (s : string)
| ArgError (e : error)
| ArgPanic (p : panic_value)
with error :=
| errorString (format : string) (args : list fmtarg)
| wrapError (format : string) (args : list fmtarg) (inner : error)
| ErrInvalidHeader (Reason : error)
| context_Canceled
| context_DeadlineExceeded
| externalError (description : string)
with panic_value :=
| PanicString (s : string)
| PanicSprintf (format : string) (args : list fmtarg)
| RuntimeError (s : string)
| CollaboratorPanic (v : string).

Definition errors_New (s : string) : error := errorString s [].
Definition fmt_Errorf (format : string) (args : list fmtarg) : error := errorString format args.
Definition fmt_Errorf_w (format : string) (args : list fmtarg) (inner : error) : error :=
  wrapError format args inner.

(** The dynamic type of an error value, which is what a type switch or
    a type assertion on the value sees. *)
Inductive error_type :=
| T_errors_errorString
| T_fmt_wrapError
| T_light_ErrInvalidHeader
| T_context_sentinel
| T_external.

Definition type_of (e : error) : error_type :=
  match e with
  | errorString _ _ => T_errors_errorString
  | wrapError _ _ _ => T_fmt_wrapError
  | ErrInvalidHeader _ => T_light_ErrInvalidHeader
  | context_Canceled | context_DeadlineExceeded => T_context_sentinel
  | externalError _ => T_external
  end.

(** [err == target] for the two sentinels of package [context], the only
    targets the reactor passes to [errors.Is]. *)
Definition same_sentinel (err target : error) : bool :=
  match err, target with
  | context_Canceled, context_Canceled => true
  | context_DeadlineExceeded, context_DeadlineExceeded => true
  | _, _ => false
  end.

(** [errors.Is err target]: the chain of [%w] wrappings is followed. *)
Fixpoint errors_Is (err target : error) : bool :=
  same_sentinel err target ||
  match err with
  | wrapError _ _ inner => errors_Is inner target
  | _ => false
  end.

(** ** Package [types]: headers, blocks, validator sets *)

(** [bytes.Equal]: equality of contents, a nil slice being equal to an
    empty one. *)
Definition bytes_Equal (a b : bytes) : bool := bool_decide (a = b).

(** A [time.Time] is the instant it denotes, in nanoseconds. *)
Definition Time := Z.

(** [t.After(u)]: [t] is strictly later than [u]. *)
Definition Time_After (t u : Time) : bool := u <? t.

(** The fields of [types.Header] that the reactor reads. *)
Record Header := mkHeader {
  ChainID : string;
  Height : Z;
  HeaderTime : Time;
  ValidatorsHash : bytes;
  NextValidatorsHash : bytes
}.

Record Commit := mkCommit {
  CommitHeight : Z;
  CommitBlockHash : bytes
}.

(** [types.SignedHeader]: an embedded header and a commit pointer.  The
    reactor builds both signed headers from the address of a block's
    header field, so the header is always present. *)
Record SignedHeader := mkSignedHeader {
  SH_Header : Header;
  SH_Commit : option Commit
}.

Record Block := mkBlock {
  BlockHeader : Header;
  BlockData : bytes;
  LastCommit : option Commit
}.

Record PartSetHeader := mkPartSetHeader {
  PSH_Total : Z;
  PSH_Hash : bytes
}.

Record PartSet := mkPartSet {
  PartSet_Header : PartSetHeader;
  PartSet_Parts : list bytes
}.

Record BlockID := mkBlockID {
  BlockID_Hash : bytes;
  BlockID_PartSetHeader : PartSetHeader
}.

(** The pure methods of package [types] that the reactor calls and whose
    code is outside the reactor: the validator-set hash, the structural
    validation of a signed header, the block hash, and the constant size
    of a block part. *)
Class TypesPkg := {
  ValidatorSet : Type;
  ValidatorSet_Hash : ValidatorSet -> bytes;
  SignedHeader_ValidateBasic : SignedHeader -> string -> option error;
  Block_Hash : Block -> bytes;
  BlockPartSizeBytes : Z
}.

(** ** The adjacent verifier *)

Section Verifier.
Context `{TypesPkg}.

(** [Reactor.VerifyAdjacent], reactor.go lines 68-115.  The result is
    the returned error, [None] for nil. *)
Definition VerifyAdjacent
  (trustedHeader untrustedHeader : SignedHeader) (untrustedVals : ValidatorSet)
  : option error :=
  let T := SH_Header trustedHeader in
  let U := SH_Header untrustedHeader in
  if bool_decide (length (NextValidatorsHash T) = 0%nat) then
    Some (errors_New "next validators hash in trusted header is empty")
  else if negb (Height U =? Int.wrap64 (Height T + 1)) then
    Some (errors_New "headers must be adjacent in height")
  else
    match SignedHeader_ValidateBasic untrustedHeader (ChainID T) with
    | Some err => Some (fmt_Errorf_w "untrustedHeader.ValidateBasic failed: %w" [] err)
    | None =>
      if Height U <=? Height T then
        Some (fmt_Errorf
          "expected new header height %d to be greater than one of old header %d"
          [ArgInt (Height U); ArgInt (Height T)])
      else if negb (Time_After (HeaderTime U) (HeaderTime T)) then
        Some (fmt_Errorf
          "expected new header time %v to be after old header time %v"
          [ArgTime (HeaderTime U); ArgTime (HeaderTime T)])
      else if negb (bytes_Equal (ValidatorsHash U) (ValidatorSet_Hash untrustedVals)) then
        Some (fmt_Errorf
          "expected new header validators (%X) to match those that were supplied (%X) at height %d"
          [ArgBytes (ValidatorsHash U); ArgBytes (ValidatorSet_Hash untrustedVals);
           ArgInt (Height U)])
      else if negb (bytes_Equal (ValidatorsHash U) (NextValidatorsHash T)) then
        Some (ErrInvalidHeader (fmt_Errorf
          "expected old header's next validators (%X) to match those from new header (%X)"
          [ArgBytes (NextValidatorsHash T); ArgBytes (ValidatorsHash U)]))
      else None
    end.

(** The six rules of the specification of the verifier, each as a
    proposition over the mathematical integers. *)
Definition rule1 (T : SignedHeader) : Prop := NextValidatorsHash (SH_Header T) <> [].
Definition rule2 (T U : SignedHeader) : Prop :=
  Height (SH_Header U) = Height (SH_Header T) + 1.
Definition rule3 (T U : SignedHeader) : Prop :=
  SignedHeader_ValidateBasic U (ChainID (SH_Header T)) = None.
Definition rule4 (T U : SignedHeader) : Prop :=
  HeaderTime (SH_Header T) < HeaderTime (SH_Header U).
Definition rule5 (U : SignedHeader) (V : ValidatorSet) : Prop :=
  ValidatorsHash (SH_Header U) = ValidatorSet_Hash V.
Definition rule6 (T U : SignedHeader) : Prop :=
  ValidatorsHash (SH_Header U) = NextValidatorsHash (SH_Header T).

(** The six rules as one proposition. *)
Definition all_rules (T U : SignedHeader) (V : ValidatorSet) : Prop :=
  rule1 T /\ rule2 T U /\ rule3 T U /\ rule4 T U /\ rule5 U V /\ rule6 T U.

(** The tag a caller can test for: the error is a
    [light.ErrInvalidHeader]. *)
Definition is_ErrInvalidHeader (e : error) : bool :=
  match e with ErrInvalidHeader _ => true | _ => false end.

End Verifier.

(** ** The reactor: constants and channel descriptor *)

(** Durations are [time.Duration] values, that is nanoseconds. *)
Definition time_Nanosecond : Z := 1.
Definition time_Millisecond : Z := 1000 * 1000 * time_Nanosecond.
Definition time_Second : Z := 1000 * time_Millisecond.

Definition BlockSyncChannel : Z := 0x40.
Definition trySyncIntervalMS : Z := 10.
Definition statusUpdateIntervalSeconds : Z := 10.
Definition switchToConsensusIntervalSeconds : Z := 1.
Definition syncTimeout : Z := 60 * time_Second.

(** The periods the three tickers of the reactor are created with. *)
Definition trySyncTicker_period : Z := trySyncIntervalMS * time_Millisecond.
Definition statusUpdateTicker_period : Z := statusUpdateIntervalSeconds * time_Second.
Definition switchToConsensusTicker_period : Z := switchToConsensusIntervalSeconds * time_Second.

Record ChannelDescriptor := mkChannelDescriptor {
  CD_ID : Z;
  CD_Priority : Z;
  CD_SendQueueCapacity : Z;
  CD_RecvBufferCapacity : Z;
  CD_RecvMessageCapacity : Z
}.

(** [GetChannelDescriptor], reactor.go lines 42-51.  [MaxMsgSize] is a
    constant of the package declared outside reactor.go. *)
Definition GetChannelDescriptor (MaxMsgSize : Z) : ChannelDescriptor :=
  {| CD_ID := BlockSyncChannel;
     CD_Priority := 5;
     CD_SendQueueCapacity := 1000;
     CD_RecvBufferCapacity := 1024;
     CD_RecvMessageCapacity := MaxMsgSize |}.

(** ** The reactor: collaborators and effects *)

Definition NodeID := string.

(** The messages of package [bcproto] as the reactor's type switch sees
    them; [Other] is any other message value, nil included.  The protobuf
    forms of a block and of a commit are opaque to the reactor. *)
Module bcproto.

Record tmBlock := mk_tmBlock { tmBlock_raw : bytes }.
Record tmCommit := mk_tmCommit { tmCommit_raw : bytes }.

Inductive Message :=
| BlockRequest (height : Z)
| NoBlockResponse (height : Z)
| BlockResponse (blk : option tmBlock) (cmt : option tmCommit)
| StatusRequest
| StatusResponse (height base : Z)
| Other (type_name : string).

End bcproto.

Record Envelope := mkEnvelope {
  From : NodeID;
  To : NodeID;
  Broadcast : bool;
  Message : bcproto.Message
}.

Record PeerError := mkPeerError {
  PE_NodeID : NodeID;
  PE_Err : error
}.

(** The pool's [BlockResponse]: a block pointer and a commit pointer. *)
Record BlockResponse := mkBlockResponse {
  block : option Block;
  commit : option Commit
}.

Section Reactor.
Context `{TypesPkg}.

(** The fields of [sm.State] the reactor reads. *)
Record State := mkState {
  State_ChainID : string;
  InitialHeight : Z;
  LastBlockHeight : Z;
  Validators : ValidatorSet;
  NextValidators : ValidatorSet;
  AppHash : bytes
}.

(** The calls the reactor makes to its collaborators (store, transport,
    codec, pool, executor, consensus reactor, metrics, clock), indexed by
    the type of the value each returns.  A Go pair [(v, err)] is a sum. *)
Inductive call : Type -> Type :=
| store_LoadBlockProto (h : Z) : call (option bcproto.tmBlock)
| store_LoadBlockCommitProto (h : Z) : call (option bcproto.tmCommit)
| store_LoadBlock (h : Z) : call (option Block)
| store_LoadBlockCommit (h : Z) : call (option Commit)
| store_Height : call Z
| store_Base : call Z
| store_SaveBlock (b : Block) (parts : PartSet) (c : option Commit) : call unit
| ch_Send (e : Envelope) : call (option error)
| ch_SendError (pe : PeerError) : call (option error)
| types_BlockFromProto (b : option bcproto.tmBlock) : call (Block + error)
| types_CommitFromProto (c : option bcproto.tmCommit) : call (Commit + error)
| block_Size (b : Block) : call Z
| block_MakePartSet (b : Block) (partSize : Z) : call (PartSet + error)
| pool_AddBlock (peer : NodeID) (br : BlockResponse) (size : Z) : call unit
| pool_SetPeerRange (peer : NodeID) (base height : Z) : call unit
| pool_PeekBlock : call (option BlockResponse)
| pool_PopRequest : call unit
| pool_RedoRequest (h : Z) : call NodeID
| pool_GetStatus : call (Z * Z * Z)
| pool_LastAdvance : call Time
| pool_IsCaughtUp : call bool
| pool_MaxPeerHeight : call Z
| pool_height : call Z
| pool_Stop : call unit
| blockSync_UnSet : call unit
| consReactor_SwitchToConsensus (st : State) (skipWAL : bool) : call unit
| blockExec_ApplyBlock (st : State) (id : BlockID) (b : Block) : call (State + error)
| metrics_RecordConsMetrics (b : Block) : call unit
| time_Since (t : Time) : call Z
| time_Now : call Time.

(** What the collaborators do: for every call the value it returns, and
    whether it panics instead of returning (and with which value). *)
Record Env := mkEnv {
  answer : forall A, call A -> A;
  panics : forall A, call A -> option string
}.

(** The observable trace of the reactor: its calls to collaborators, its
    log lines, its calls to its own verifier, and what it prints. *)
Inductive event :=
| Ev {A : Type} (c : call A)
| Log (level msg : string)
| Println (msg : string) (hashes : list bytes)
| EvVerifyAdjacent (T U : SignedHeader) (V : ValidatorSet).

Inductive outcome (A : Type) :=
| Ret (a : A)
| Panic (v : panic_value).
Arguments Ret {A} a.
Arguments Panic {A} v.

(** Computations of the reactor: they read the environment, emit events
    in order, and return or panic. *)
Definition M (A : Type) : Type := Env -> list event * outcome A.

Definition ret {A} (a : A) : M A := fun _ => ([], Ret a).

Definition bind {A B} (m : M A) (k : A -> M B) : M B := fun env =>
  match m env with
  | (t, Ret a) => let '(t', o) := k a env in ((t ++ t')%list, o)
  | (t, Panic v) => (t, Panic v)
  end.

Definition do {A} (c : call A) : M A := fun env =>
  ([Ev c],
   match panics env A c with
   | Some v => Panic (CollaboratorPanic v)
   | None => Ret (answer env A c)
   end).

Definition emit (e : event) : M unit := fun _ => ([e], Ret tt).

Definition panic {A} (v : panic_value) : M A := fun _ => ([], Panic v).

(** A function body [m] with a deferred [recover]: when [m] panics with
    [v], the deferred handler [h v] runs and its result is the result of
    the function. *)
Definition with_recover {A} (m : M A) (h : panic_value -> M A) : M A := fun env =>
  match m env with
  | (t, Ret a) => (t, Ret a)
  | (t, Panic v) => let '(t', o) := h v env in ((t ++ t')%list, o)
  end.

Notation "x <- c1 ;; c2" := (bind c1 (fun x => c2))
  (at level 100, c1 at next level, right associativity).
Notation "c1 ;;; c2" := (bind c1 (fun _ => c2))
  (at level 100, right associativity).

Definition trace_of {A} (r : list event * outcome A) : list event := fst r.
Definition outcome_of {A} (r : list event * outcome A) : outcome A := snd r.

(** *** The reactor's own state *)

(** The fields of [Reactor] that the handlers and the driver read or
    write.  [consReactor] is an interface value: [true] when non-nil. *)
Record Reactor := mkReactor {
  initialState : State;
  lastTrustedBlock : option BlockResponse;
  consReactor_set : bool;
  blockSyncCh_ID : Z
}.

Definition set_lastTrustedBlock (r : Reactor) (b : option BlockResponse) : Reactor :=
  {| initialState := initialState r;
     lastTrustedBlock := b;
     consReactor_set := consReactor_set r;
     blockSyncCh_ID := blockSyncCh_ID r |}.

(** *** Message handlers *)

(** [respondToPeer], reactor.go lines 238-256. *)
Definition respondToPeer (height : Z) (peerID : NodeID) : M (option error) :=
  let no_block :=
    emit (Log "info" "peer requesting a block we do not have") ;;;
    do (ch_Send {| From := ""; To := peerID; Broadcast := false;
                   Message := bcproto.NoBlockResponse height |}) in
  blk <- do (store_LoadBlockProto height) ;;
  match blk with
  | Some b =>
    blockCommit <- do (store_LoadBlockCommitProto height) ;;
    match blockCommit with
    | Some c =>
      do (ch_Send {| From := ""; To := peerID; Broadcast := false;
                     Message := bcproto.BlockResponse (Some b) (Some c) |})
    | None => no_block
    end
  | None => no_block
  end.

(** [handleBlockSyncMessage], reactor.go lines 261-300. *)
Definition handleBlockSyncMessage (envelope : Envelope) : M (option error) :=
  match Message envelope with
  | bcproto.BlockRequest height => respondToPeer height (From envelope)
  | bcproto.BlockResponse pb pc =>
    rb <- do (types_BlockFromProto pb) ;;
    match rb with
    | inr err =>
      emit (Log "error" "failed to convert block from proto") ;;; ret (Some err)
    | inl blk =>
      rc <- do (types_CommitFromProto pc) ;;
      match rc with
      | inr err =>
        emit (Log "error" "failed to convert commit from proto") ;;; ret (Some err)
      | inl cmt =>
        size <- do (block_Size blk) ;;
        do (pool_AddBlock (From envelope)
              {| block := Some blk; commit := Some cmt |} size) ;;;
        ret None
      end
    end
  | bcproto.StatusRequest =>
    height <- do store_Height ;;
    base <- do store_Base ;;
    do (ch_Send {| From := ""; To := From envelope; Broadcast := false;
                   Message := bcproto.StatusResponse height base |})
  | bcproto.StatusResponse height base =>
    do (pool_SetPeerRange (From envelope) base height) ;;; ret None
  | bcproto.NoBlockResponse height =>
    emit (Log "debug" "peer does not have the requested block") ;;; ret None
  | bcproto.Other type_name =>
    ret (Some (fmt_Errorf "received unknown message: %T" [ArgString type_name]))
  end.

(** [handleMessage], reactor.go lines 305-328: the body runs under a
    deferred function that recovers a panic and turns it into the
    returned error. *)
Definition handleMessage (chID : Z) (envelope : Envelope) : M (option error) :=
  with_recover
    (emit (Log "debug" "received message") ;;;
     if chID =? BlockSyncChannel then handleBlockSyncMessage envelope
     else ret (Some (fmt_Errorf "unknown channel ID (%d) for envelope (%v)"
                       [ArgInt chID; ArgString (From envelope)])))
    (fun e =>
       let err := fmt_Errorf "panic in processing message: %v" [ArgPanic e] in
       emit (Log "error" "recovering from processing message panic") ;;;
       ret (Some err)).

(** What a loop iteration does next: go round again, or leave the
    function. *)
Inductive next := Continue | Return.

(** One iteration of the loop of [processBlockSyncCh], reactor.go lines
    338-351, for the envelope the iterator delivered. *)
Definition processEnvelope (r : Reactor) (envelope : Envelope) : M next :=
  err <- handleMessage (blockSyncCh_ID r) envelope ;;
  match err with
  | None => ret Continue
  | Some e =>
    if errors_Is e context_Canceled || errors_Is e context_DeadlineExceeded then
      ret Return
    else
      emit (Log "error" "failed to process message") ;;;
      serr <- do (ch_SendError {| PE_NodeID := From envelope; PE_Err := e |}) ;;
      match serr with
      | Some _ => ret Return
      | None => ret Continue
      end
  end.

(** [processBlockSyncCh], reactor.go lines 335-353, over the envelopes
    the iterator delivers before it ends. *)
Fixpoint processBlockSyncCh (r : Reactor) (envelopes : list Envelope) : M unit :=
  match envelopes with
  | [] => ret tt
  | envelope :: rest =>
    n <- processEnvelope r envelope ;;
    match n with
    | Return => ret tt
    | Continue => processBlockSyncCh r rest
    end
  end.

(** *** The driver loop *)

(** The local variables of [poolRoutine] that live across iterations.
    [didProcessCh] is a buffered channel of capacity one: [true] when it
    holds a value.  The floating-point rate estimate [lastRate] only
    feeds a log line and is left out. *)
Record Locals := mkLocals {
  state : State;
  blocksSynced : Z;
  lastHundred : Time;
  didProcessCh : bool
}.

Definition set_didProcessCh (l : Locals) (full : bool) : Locals :=
  {| state := state l;
     blocksSynced := blocksSynced l;
     lastHundred := lastHundred l;
     didProcessCh := full |}.

Definition is_nil {A} (p : option A) : bool :=
  match p with None => true | Some _ => false end.

(** The [switchToConsensusTicker] case, reactor.go lines 484-522. *)
Definition switchToConsensusTick (r : Reactor) (stateSynced : bool) (l : Locals) : M next :=
  status <- do pool_GetStatus ;;
  lastAdvance <- do pool_LastAdvance ;;
  emit (Log "debug" "consensus ticker") ;;;
  caughtUp <- do pool_IsCaughtUp ;;
  switch <-
    (if caughtUp then
       emit (Log "info" "switching to consensus reactor") ;;; ret true
     else
       since <- do (time_Since lastAdvance) ;;
       if since >? syncTimeout then
         emit (Log "error" "no progress since last advance") ;;; ret true
       else
         maxPeerHeight <- do pool_MaxPeerHeight ;;
         since' <- do (time_Since lastAdvance) ;;
         emit (Log "info" "not caught up yet") ;;; ret false) ;;
  if switch : bool then
    do pool_Stop ;;;
    do blockSync_UnSet ;;;
    (if consReactor_set r then
       do (consReactor_SwitchToConsensus (state l) ((blocksSynced l >? 0) || stateSynced))
     else ret tt) ;;;
    ret Return
  else ret Continue.

(** The check of the peeked block [nblk] (of the pool's response [nb]),
    reactor.go lines 566-609.  The result is [true] when control reaches
    the statement after the [if]/[else] (line 610), [false] when the
    function returns. *)
Definition checkBlock (r : Reactor) (l : Locals) (nb : BlockResponse) (nblk : Block)
  : M bool :=
  let genesis :=
    let oldHash := ValidatorSet_Hash (Validators (initialState r)) in
    if negb (bytes_Equal oldHash (ValidatorsHash (BlockHeader nblk))) then
      emit (Println "initial hash new hash"
              [ValidatorSet_Hash (Validators (initialState r));
               ValidatorsHash (BlockHeader nblk)]) ;;;
      ret false
    else ret true in
  match lastTrustedBlock r with
  | Some ltb =>
    match block ltb with
    | Some tblk =>
      if negb (Height (BlockHeader nblk) =? Int.wrap64 (Height (BlockHeader tblk) + 1)) then
        panic (PanicString "Need last block")
      else
        let T := {| SH_Header := BlockHeader tblk; SH_Commit := commit ltb |} in
        let U := {| SH_Header := BlockHeader nblk; SH_Commit := commit nb |} in
        emit (EvVerifyAdjacent T U (NextValidators (state l))) ;;;
        match VerifyAdjacent T U (NextValidators (state l)) with
        | Some err =>
          let err := fmt_Errorf_w "invalid last commit: %w" [] err in
          emit (Log "error" "invalid last commit") ;;;
          peerID <- do (pool_RedoRequest (Int.wrap64 (Height (BlockHeader tblk) + 1))) ;;
          serr <- do (ch_SendError {| PE_NodeID := peerID; PE_Err := err |}) ;;
          match serr with
          | Some _ => ret false
          | None => ret true
          end
        | None => ret true
        end
    | None => genesis
    end
  | None => genesis
  end.

(** The processing of a block that passed the check, reactor.go lines
    610-641: it becomes the trusted block, its request is popped, it is
    saved and applied. *)
Definition applyPeeked (r : Reactor) (l : Locals) (nb : BlockResponse) (nblk : Block)
  (newBlockParts : PartSet) (newBlockID : BlockID) : M (Reactor * Locals * next) :=
  let r := set_lastTrustedBlock r (Some nb) in
  do pool_PopRequest ;;;
  do (store_SaveBlock nblk newBlockParts (commit nb)) ;;;
  applied <- do (blockExec_ApplyBlock (state l) newBlockID nblk) ;;
  match applied with
  | inr err =>
    panic (PanicSprintf "failed to process committed block (%d:%X): %v"
             [ArgInt (Height (BlockHeader nblk)); ArgBytes (Block_Hash nblk);
              ArgError err])
  | inl state' =>
    do (metrics_RecordConsMetrics nblk) ;;;
    let synced := Int.wrapu64 (blocksSynced l + 1) in
    lastHundred' <-
      (if synced mod 100 =? 0 then
         since <- do (time_Since (lastHundred l)) ;;
         height <- do pool_height ;;
         maxPeerHeight <- do pool_MaxPeerHeight ;;
         emit (Log "info" "block sync rate") ;;;
         do time_Now
       else ret (lastHundred l)) ;;
    ret (r,
         {| state := state'; blocksSynced := synced;
            lastHundred := lastHundred'; didProcessCh := didProcessCh l |},
         Continue)
  end.

(** The load of the last trusted block, reactor.go lines 547-552. *)
Definition loadTrusted (r : Reactor) : M Reactor :=
  if is_nil (lastTrustedBlock r) && negb (LastBlockHeight (initialState r) =? 0) then
    b <- do (store_LoadBlock (LastBlockHeight (initialState r))) ;;
    c <- do (store_LoadBlockCommit (LastBlockHeight (initialState r))) ;;
    let r' := set_lastTrustedBlock r (Some {| block := b; commit := c |}) in
    if is_nil (lastTrustedBlock r') then
      panic (PanicString "Failed to load last trusted block")
    else ret r'
  else ret r.

(** The [didProcessCh] case, reactor.go lines 529-641, after the receive
    from the channel. *)
Definition didProcess (r : Reactor) (l : Locals) : M (Reactor * Locals * next) :=
  newBlock <- do pool_PeekBlock ;;
  match newBlock with
  | None => ret (r, l, Continue)
  | Some nb =>
    let l := set_didProcessCh l true in
    r <- loadTrusted r ;;
    match block nb with
    | None => panic (RuntimeError "invalid memory address or nil pointer dereference")
    | Some nblk =>
      made <- do (block_MakePartSet nblk BlockPartSizeBytes) ;;
      match made with
      | inr err2 => emit (Log "error" "failed to make ") ;;; ret (r, l, Return)
      | inl newBlockParts =>
        let newBlockPartSetHeader := PartSet_Header newBlockParts in
        let newBlockID :=
          {| BlockID_Hash := Block_Hash nblk;
             BlockID_PartSetHeader := newBlockPartSetHeader |} in
        proceed <- checkBlock r l nb nblk ;;
        if proceed : bool then applyPeeked r l nb nblk newBlockParts newBlockID
        else ret (r, l, Return)
      end
    end
  end.

(** The case the [select] statement of an iteration runs. *)
Inductive selected :=
| sel_ctx_Done
| sel_switchToConsensusTicker
| sel_trySyncTicker
| sel_didProcessCh.

(** One iteration of the loop of [poolRoutine], reactor.go lines
    480-643. *)
Definition poolRoutine_iteration
  (r : Reactor) (stateSynced : bool) (l : Locals) (sel : selected)
  : M (Reactor * Locals * next) :=
  match sel with
  | sel_ctx_Done => ret (r, l, Return)
  | sel_switchToConsensusTicker =>
    n <- switchToConsensusTick r stateSynced l ;; ret (r, l, n)
  | sel_trySyncTicker => ret (r, set_didProcessCh l true, Continue)
  | sel_didProcessCh => didProcess r (set_didProcessCh l false)
  end.

(** [poolRoutine] along the cases its [select] runs, until it returns or
    the schedule ends. *)
Fixpoint poolRoutine_loop
  (r : Reactor) (stateSynced : bool) (l : Locals) (schedule : list selected)
  : M (Reactor * Locals * next) :=
  match schedule with
  | [] => ret (r, l, Continue)
  | sel :: rest =>
    step <- poolRoutine_iteration r stateSynced l sel ;;
    match step with
    | (r', l', Return) => ret (r', l', Return)
    | (r', l', Continue) => poolRoutine_loop r' stateSynced l' rest
    end
  end.

(** [poolRoutine], reactor.go lines 463-644: the locals start from the
    initial state of the reactor. *)
Definition poolRoutine
  (r : Reactor) (stateSynced : bool) (now : Time) (schedule : list selected)
  : M (Reactor * Locals * next) :=
  poolRoutine_loop r stateSynced
    {| state := initialState r; blocksSynced := 0; lastHundred := now;
       didProcessCh := false |}
    schedule.

(** *** Observations on a trace *)

(** The envelopes handed to [blockSyncCh.Send], in order. *)
Definition sends (t : list event) : list Envelope :=
  flat_map (fun e => match e with
                     | Ev c => match c with ch_Send env => [env] | _ => [] end
                     | _ => []
                     end) t.

(** The peer errors handed to [blockSyncCh.SendError], in order. *)
Definition peer_errors (t : list event) : list PeerError :=
  flat_map (fun e => match e with
                     | Ev c => match c with ch_SendError pe => [pe] | _ => [] end
                     | _ => []
                     end) t.

(** The calls of the consensus handoff, with their arguments. *)
Definition handoffs (t : list event) : list (State * bool) :=
  flat_map (fun e => match e with
                     | Ev c => match c with
                               | consReactor_SwitchToConsensus st skipWAL => [(st, skipWAL)]
                               | _ => []
                               end
                     | _ => []
                     end) t.

(** The heights [pool.RedoRequest] was called with. *)
Definition redone (t : list event) : list Z :=
  flat_map (fun e => match e with
                     | Ev c => match c with pool_RedoRequest h => [h] | _ => [] end
                     | _ => []
                     end) t.

Definition is_PopRequest (e : event) : bool :=
  match e with Ev c => match c with pool_PopRequest => true | _ => false end | _ => false end.
Definition is_SaveBlock (e : event) : bool :=
  match e with Ev c => match c with store_SaveBlock _ _ _ => true | _ => false end
  | _ => false end.
Definition is_ApplyBlock (e : event) : bool :=
  match e with Ev c => match c with blockExec_ApplyBlock _ _ _ => true | _ => false end
  | _ => false end.
Definition is_pool_Stop (e : event) : bool :=
  match e with Ev c => match c with pool_Stop => true | _ => false end | _ => false end.
Definition is_blockSync_UnSet (e : event) : bool :=
  match e with Ev c => match c with blockSync_UnSet => true | _ => false end | _ => false end.
Definition is_VerifyAdjacent (e : event) : bool :=
  match e with EvVerifyAdjacent _ _ _ => true | _ => false end.

(** How many events of a trace satisfy a test. *)
Definition count (p : event -> bool) (t : list event) : nat := length (filter p t).

(** No collaborator panics. *)
Definition quiet (env : Env) : Prop := forall A (c : call A), panics env A c = None.

End Reactor.

Arguments Ret {A} a.
Arguments Panic {A} v.

(** ** The wire messages of [cometbft/blocksync/v2/types.proto] *)

Module Wire.

(** Results of the generated code: a value, a returned error, a run-time
    panic (an index or a slice bound out of range), or a loop of the
    model that ran out of its iteration budget. *)
Inductive res (A : Type) :=
| Done (a : A)
| Fail (e : error)
| Crash (why : string)
| OutOfFuel.
Arguments Done {A} a.
Arguments Fail {A} e.
Arguments Crash {A} why.
Arguments OutOfFuel {A}.

Definition res_bind {A B} (r : res A) (k : A -> res B) : res B :=
  match r with
  | Done a => k a
  | Fail e => Fail e
  | Crash w => Crash w
  | OutOfFuel => OutOfFuel
  end.

Notation "x <-- c1 ;; c2" := (res_bind c1 (fun x => c2))
  (at level 100, c1 at next level, right associativity).

Definition ErrInvalidLengthTypes : error :=
  fmt_Errorf "proto: negative length found during unmarshaling" [].
Definition ErrIntOverflowTypes : error := fmt_Errorf "proto: integer overflow" [].
Definition ErrUnexpectedEndOfGroupTypes : error :=
  fmt_Errorf "proto: unexpected end of group" [].
Definition io_ErrUnexpectedEOF : error := errors_New "unexpected EOF".

(** *** Slices *)

Definition len (d : bytes) : Z := Z.of_nat (length d).

(** [make([]byte, size)]. *)
Definition make (size : Z) : res bytes :=
  if size <? 0 then Crash "makeslice: len out of range"
  else Done (replicate (Z.to_nat size) 0).

(** [d[i]] as a value; the callers check [i < len(d)] first. *)
Definition index (d : bytes) (i : Z) : Z := default 0 (d !! Z.to_nat i).

(** [d[i] = v]. *)
Definition store (d : bytes) (i v : Z) : res bytes :=
  if (0 <=? i) && (i <? len d) then Done (<[Z.to_nat i := v]> d)
  else Crash "index out of range".

(** [f(d[:i])] for an [f] that writes into the slice it is given: the
    slice shares its bytes with [d]. *)
Definition on_prefix {A} (d : bytes) (i : Z) (f : bytes -> res (bytes * A))
  : res (bytes * A) :=
  if (0 <=? i) && (i <=? len d) then
    w <-- f (take (Z.to_nat i) d) ;;
    let '(d', a) := w in
    Done ((d' ++ drop (Z.to_nat i) d)%list, a)
  else Crash "slice bounds out of range".

(** [f(d[i:])], likewise. *)
Definition on_suffix {A} (d : bytes) (i : Z) (f : bytes -> res (bytes * A))
  : res (bytes * A) :=
  if (0 <=? i) && (i <=? len d) then
    w <-- f (drop (Z.to_nat i) d) ;;
    let '(d', a) := w in
    Done ((take (Z.to_nat i) d ++ d')%list, a)
  else Crash "slice bounds out of range".

(** [d[i:j]] as a value. *)
Definition slice (d : bytes) (i j : Z) : bytes :=
  take (Z.to_nat (j - i)) (drop (Z.to_nat i) d).

(** *** Varints *)

Definition uint8 (z : Z) : Z := z mod 256.

(** [math_bits.Len64]: the number of bits needed to write [x]. *)
Definition Len64 (x : Z) : Z := if x =? 0 then 0 else Z.log2 x + 1.

Definition sovTypes (x : Z) : Z := (Len64 (Z.lor x 1) + 6) / 7.

(** The loop of [encodeVarintTypes]; ten rounds suffice for a [uint64]. *)
Fixpoint encodeVarint_loop (fuel : nat) (dAtA : bytes) (offset v : Z) : res bytes :=
  match fuel with
  | O => OutOfFuel
  | S k =>
    if v >=? 128 then
      d <-- store dAtA offset (uint8 (Z.lor (Z.land v 0x7f) 0x80)) ;;
      encodeVarint_loop k d (offset + 1) (Z.shiftr v 7)
    else store dAtA offset (uint8 v)
  end.

(** [encodeVarintTypes], lines 423-433: the buffer after the writes and
    the returned index. *)
Definition encodeVarintTypes (dAtA : bytes) (offset v : Z) : res (bytes * Z) :=
  let offset := offset - sovTypes v in
  let base := offset in
  d <-- encodeVarint_loop 10 dAtA offset v ;;
  Done (d, base).

(** The varint-reading loop that the generated code repeats for every
    tag and length: [wrap] is the wrap-around of the variable read into
    ([uint64] for a tag, [int] for a length).  It returns the value and
    the index after it. *)
Fixpoint readVarint_loop (fuel : nat) (wrap : Z -> Z) (dAtA : bytes)
  (shift acc iNdEx : Z) : res (Z * Z) :=
  match fuel with
  | O => OutOfFuel
  | S k =>
    if shift >=? 64 then Fail ErrIntOverflowTypes
    else if iNdEx >=? len dAtA then Fail io_ErrUnexpectedEOF
    else
      let b := index dAtA iNdEx in
      let acc := Z.lor acc (wrap (Z.shiftl (Z.land b 0x7F) shift)) in
      if b <? 0x80 then Done (acc, iNdEx + 1)
      else readVarint_loop k wrap dAtA (shift + 7) acc (iNdEx + 1)
  end.

Definition readVarint (wrap : Z -> Z) (dAtA : bytes) (iNdEx : Z) : res (Z * Z) :=
  readVarint_loop 11 wrap dAtA 0 0 iNdEx.

(** [int32(x)] for a [uint64] [x]. *)
Definition int32 (x : Z) : Z := (x + 2 ^ 31) mod 2 ^ 32 - 2 ^ 31.

(** *** Messages declared in other packages *)

(** A message type of another package ([v1.BlockRequest], [v3.Block],
    ...), through what the code here uses of it: the zero value behind
    [&T{}], the bytes its [MarshalToSizedBuffer] writes (whose number is
    its [Size]), and its [Unmarshal] into a receiver. *)
Record InnerMessage := mkInner {
  carrier : Type;
  zero : carrier;
  encoding : carrier -> bytes;
  Unmarshal : carrier -> bytes -> carrier + error
}.

Definition inner_Size (c : InnerMessage) (x : carrier c) : Z := len (encoding c x).

(** [x.MarshalToSizedBuffer(dAtA)]: the encoding is written at the end
    of the slice, as the methods generated in this file do. *)
Definition inner_MarshalToSizedBuffer (c : InnerMessage) (x : carrier c) (dAtA : bytes)
  : res (bytes * Z) :=
  let n := inner_Size c x in
  if n <=? len dAtA then
    Done ((take (Z.to_nat (len dAtA - n)) dAtA ++ encoding c x)%list, n)
  else Crash "index out of range".

Class Imported := {
  v1_BlockRequest : InnerMessage;
  v1_NoBlockResponse : InnerMessage;
  v1_StatusRequest : InnerMessage;
  v1_StatusResponse : InnerMessage;
  v3_Block : InnerMessage;
  v3_ExtendedCommit : InnerMessage
}.

Section Messages.
Context `{Imported}.

(** *** The message types *)

Record BlockResponse := mkBlockResponse {
  BR_Block : option (carrier v3_Block);
  BR_ExtCommit : option (carrier v3_ExtendedCommit)
}.

(** The five wrappers of the oneof [sum], each holding a pointer. *)
Inductive isMessage_Sum :=
| Message_BlockRequest (BlockRequest : option (carrier v1_BlockRequest))
| Message_NoBlockResponse (NoBlockResponse : option (carrier v1_NoBlockResponse))
| Message_BlockResponse (BlockResponse : option BlockResponse)
| Message_StatusRequest (StatusRequest : option (carrier v1_StatusRequest))
| Message_StatusResponse (StatusResponse : option (carrier v1_StatusResponse)).

Record Message := mkMessage { Sum : option isMessage_Sum }.

(** *** Size *)

(** The size of a length-delimited field holding [l] bytes:
    [1 + l + sovTypes(uint64(l))]. *)
Definition field_size (l : Z) : Z := 1 + l + sovTypes (Int.wrapu64 l).

(** [BlockResponse.Size], lines 434-449. *)
Definition BlockResponse_Size (m : BlockResponse) : Z :=
  let n := 0 in
  let n := match BR_Block m with
           | Some b => n + field_size (inner_Size v3_Block b)
           | None => n
           end in
  let n := match BR_ExtCommit m with
           | Some c => n + field_size (inner_Size v3_ExtendedCommit c)
           | None => n
           end in
  n.

(** The [Size] methods of the five wrappers, lines 463-522. *)
Definition Sum_Size (s : isMessage_Sum) : Z :=
  match s with
  | Message_BlockRequest (Some x) => field_size (inner_Size v1_BlockRequest x)
  | Message_NoBlockResponse (Some x) => field_size (inner_Size v1_NoBlockResponse x)
  | Message_BlockResponse (Some x) => field_size (BlockResponse_Size x)
  | Message_StatusRequest (Some x) => field_size (inner_Size v1_StatusRequest x)
  | Message_StatusResponse (Some x) => field_size (inner_Size v1_StatusResponse x)
  | _ => 0
  end.

(** [Message.Size], lines 451-461. *)
Definition Message_Size (m : Message) : Z :=
  match Sum m with
  | Some s => Sum_Size s
  | None => 0
  end.

(** *** Marshal *)

(** The block the generated code repeats for every field that holds a
    message: the message is written at the end of [dAtA[:i]], then its
    length as a varint before it, then the tag byte before that.  The
    result is the buffer and the new [i]. *)
Definition put_field (tag : Z) (marshal : bytes -> res (bytes * Z)) (dAtA : bytes) (i : Z)
  : res (bytes * Z) :=
  w <-- on_prefix dAtA i marshal ;;
  let '(d, size) := w in
  let i := i - size in
  w <-- encodeVarintTypes d i (Int.wrapu64 size) ;;
  let '(d, i) := w in
  let i := i - 1 in
  d <-- store d i tag ;;
  Done (d, i).

(** [BlockResponse.MarshalToSizedBuffer], lines 254-284. *)
Definition BlockResponse_MarshalToSizedBuffer (m : BlockResponse) (dAtA : bytes)
  : res (bytes * Z) :=
  let i := len dAtA in
  w <-- match BR_ExtCommit m with
        | Some c => put_field 0x12 (inner_MarshalToSizedBuffer v3_ExtendedCommit c) dAtA i
        | None => Done (dAtA, i)
        end ;;
  let '(d, i) := w in
  w <-- match BR_Block m with
        | Some b => put_field 0xa (inner_MarshalToSizedBuffer v3_Block b) d i
        | None => Done (d, i)
        end ;;
  let '(d, i) := w in
  Done (d, len dAtA - i).

(** The [MarshalToSizedBuffer] methods of the five wrappers, lines
    323-422. *)
Definition Sum_MarshalToSizedBuffer (s : isMessage_Sum) (dAtA : bytes) : res (bytes * Z) :=
  let i := len dAtA in
  w <-- match s with
        | Message_BlockRequest (Some x) =>
          put_field 0xa (inner_MarshalToSizedBuffer v1_BlockRequest x) dAtA i
        | Message_NoBlockResponse (Some x) =>
          put_field 0x12 (inner_MarshalToSizedBuffer v1_NoBlockResponse x) dAtA i
        | Message_BlockResponse (Some x) =>
          put_field 0x1a (BlockResponse_MarshalToSizedBuffer x) dAtA i
        | Message_StatusRequest (Some x) =>
          put_field 0x22 (inner_MarshalToSizedBuffer v1_StatusRequest x) dAtA i
        | Message_StatusResponse (Some x) =>
          put_field 0x2a (inner_MarshalToSizedBuffer v1_StatusResponse x) dAtA i
        | _ => Done (dAtA, i)
        end ;;
  let '(d, i) := w in
  Done (d, len dAtA - i).

(** The [MarshalTo] methods of the five wrappers. *)
Definition Sum_MarshalTo (s : isMessage_Sum) (dAtA : bytes) : res (bytes * Z) :=
  let size := Sum_Size s in
  on_prefix dAtA size (Sum_MarshalToSizedBuffer s).

(** [Message.MarshalToSizedBuffer], lines 301-316. *)
Definition Message_MarshalToSizedBuffer (m : Message) (dAtA : bytes) : res (bytes * Z) :=
  let i := len dAtA in
  match Sum m with
  | Some s =>
    let size := Sum_Size s in
    let i := i - size in
    w <-- on_suffix dAtA i (Sum_MarshalTo s) ;;
    let '(d, _) := w in
    Done (d, len dAtA - i)
  | None => Done (dAtA, len dAtA - i)
  end.

(** [Message.Marshal], lines 286-294. *)
Definition Message_Marshal (m : Message) : res bytes :=
  let size := Message_Size m in
  dAtA <-- make size ;;
  w <-- on_prefix dAtA size (Message_MarshalToSizedBuffer m) ;;
  let '(d, n) := w in
  if (0 <=? n) && (n <=? len d) then Done (take (Z.to_nat n) d)
  else Crash "slice bounds out of range".

(** *** Unmarshal *)

(** The skipping of a varint in [skipTypes], lines 900-911: the index
    after the varint. *)
Fixpoint skipVarint_loop (fuel : nat) (dAtA : bytes) (shift iNdEx : Z) : res Z :=
  match fuel with
  | O => OutOfFuel
  | S k =>
    if shift >=? 64 then Fail ErrIntOverflowTypes
    else if iNdEx >=? len dAtA then Fail io_ErrUnexpectedEOF
    else
      let iNdEx := iNdEx + 1 in
      if index dAtA (iNdEx - 1) <? 0x80 then Done iNdEx
      else skipVarint_loop k dAtA (shift + 7) iNdEx
  end.

(** The loop of [skipTypes], lines 881-953. *)
Fixpoint skipTypes_loop (fuel : nat) (dAtA : bytes) (iNdEx depth : Z) : res Z :=
  match fuel with
  | O => OutOfFuel
  | S k =>
    if negb (iNdEx <? len dAtA) then Fail io_ErrUnexpectedEOF
    else
      w <-- readVarint Int.wrapu64 dAtA iNdEx ;;
      let '(wire, iNdEx) := w in
      let wireType := Z.land wire 0x7 in
      w <-- (if wireType =? 0 then
               i <-- skipVarint_loop 11 dAtA 0 iNdEx ;; Done (i, depth)
             else if wireType =? 1 then Done (Int.wrap64 (iNdEx + 8), depth)
             else if wireType =? 2 then
               w <-- readVarint Int.wrap64 dAtA iNdEx ;;
               let '(length, iNdEx) := w in
               if length <? 0 then Fail ErrInvalidLengthTypes
               else Done (Int.wrap64 (iNdEx + length), depth)
             else if wireType =? 3 then Done (iNdEx, depth + 1)
             else if wireType =? 4 then
               if depth =? 0 then Fail ErrUnexpectedEndOfGroupTypes
               else Done (iNdEx, depth - 1)
             else if wireType =? 5 then Done (Int.wrap64 (iNdEx + 4), depth)
             else Fail (fmt_Errorf "proto: illegal wireType %d" [ArgInt wireType])) ;;
      let '(iNdEx, depth) := w in
      if iNdEx <? 0 then Fail ErrInvalidLengthTypes
      else if depth =? 0 then Done iNdEx
      else skipTypes_loop k dAtA iNdEx depth
  end.

(** [skipTypes], lines 877-954. *)
Definition skipTypes (dAtA : bytes) : res Z :=
  skipTypes_loop (S (length dAtA)) dAtA 0 0.

(** The default case of the field switch of an [Unmarshal] method: the
    unknown field that starts at [preIndex] is skipped. *)
Definition skip_field (dAtA : bytes) (preIndex : Z) : res Z :=
  let iNdEx := preIndex in
  skippy <-- skipTypes (drop (Z.to_nat iNdEx) dAtA) ;;
  if (skippy <? 0) || (Int.wrap64 (iNdEx + skippy) <? 0) then Fail ErrInvalidLengthTypes
  else if Int.wrap64 (iNdEx + skippy) >? len dAtA then Fail io_ErrUnexpectedEOF
  else Done (Int.wrap64 (iNdEx + skippy)).

(** The block the generated code repeats for every field that holds a
    message, up to the call of the message's [Unmarshal]: the length is
    read and checked.  The result is the index of the first byte of the
    message and the index after its last byte. *)
Definition read_length (dAtA : bytes) (iNdEx : Z) : res (Z * Z) :=
  w <-- readVarint Int.wrap64 dAtA iNdEx ;;
  let '(msglen, iNdEx) := w in
  if msglen <? 0 then Fail ErrInvalidLengthTypes
  else
    let postIndex := Int.wrap64 (iNdEx + msglen) in
    if postIndex <? 0 then Fail ErrInvalidLengthTypes
    else if postIndex >? len dAtA then Fail io_ErrUnexpectedEOF
    else Done (iNdEx, postIndex).

(** [x.Unmarshal(d)] of a message of another package, as a result. *)
Definition inner_Unmarshal (c : InnerMessage) (x : carrier c) (d : bytes) : res (carrier c) :=
  match Unmarshal c x d with
  | inl v => Done v
  | inr err => Fail err
  end.

(** The loop of [BlockResponse.Unmarshal], lines 533-645, and the check
    after it. *)
Fixpoint BlockResponse_Unmarshal_loop (fuel : nat) (m : BlockResponse) (dAtA : bytes)
  (iNdEx : Z) : res BlockResponse :=
  match fuel with
  | O => OutOfFuel
  | S k =>
    if negb (iNdEx <? len dAtA) then
      if iNdEx >? len dAtA then Fail io_ErrUnexpectedEOF else Done m
    else
      let preIndex := iNdEx in
      w <-- readVarint Int.wrapu64 dAtA iNdEx ;;
      let '(wire, iNdEx) := w in
      let fieldNum := int32 (Z.shiftr wire 3) in
      let wireType := Z.land wire 0x7 in
      if wireType =? 4 then
        Fail (fmt_Errorf "proto: BlockResponse: wiretype end group for non-group" [])
      else if fieldNum <=? 0 then
        Fail (fmt_Errorf "proto: BlockResponse: illegal tag %d (wire type %d)"
                [ArgInt fieldNum; ArgInt wire])
      else if fieldNum =? 1 then
        if negb (wireType =? 2) then
          Fail (fmt_Errorf "proto: wrong wireType = %d for field Block" [ArgInt wireType])
        else
          w <-- read_length dAtA iNdEx ;;
          let '(iNdEx, postIndex) := w in
          let receiver := default (zero v3_Block) (BR_Block m) in
          v <-- inner_Unmarshal v3_Block receiver (slice dAtA iNdEx postIndex) ;;
          BlockResponse_Unmarshal_loop k
            {| BR_Block := Some v; BR_ExtCommit := BR_ExtCommit m |} dAtA postIndex
      else if fieldNum =? 2 then
        if negb (wireType =? 2) then
          Fail (fmt_Errorf "proto: wrong wireType = %d for field ExtCommit" [ArgInt wireType])
        else
          w <-- read_length dAtA iNdEx ;;
          let '(iNdEx, postIndex) := w in
          let receiver := default (zero v3_ExtendedCommit) (BR_ExtCommit m) in
          v <-- inner_Unmarshal v3_ExtendedCommit receiver (slice dAtA iNdEx postIndex) ;;
          BlockResponse_Unmarshal_loop k
            {| BR_Block := BR_Block m; BR_ExtCommit := Some v |} dAtA postIndex
      else
        iNdEx <-- skip_field dAtA preIndex ;;
        BlockResponse_Unmarshal_loop k m dAtA iNdEx
  end.

(** [BlockResponse.Unmarshal], lines 530-651: the receiver after the
    call, or the returned error. *)
Definition BlockResponse_Unmarshal (m : BlockResponse) (dAtA : bytes) : res BlockResponse :=
  BlockResponse_Unmarshal_loop (S (length dAtA)) m dAtA 0.

(** The loop of [Message.Unmarshal], lines 655-870, and the check after
    it. *)
Fixpoint Message_Unmarshal_loop (fuel : nat) (m : Message) (dAtA : bytes) (iNdEx : Z)
  : res Message :=
  match fuel with
  | O => OutOfFuel
  | S k =>
    if negb (iNdEx <? len dAtA) then
      if iNdEx >? len dAtA then Fail io_ErrUnexpectedEOF else Done m
    else
      let preIndex := iNdEx in
      w <-- readVarint Int.wrapu64 dAtA iNdEx ;;
      let '(wire, iNdEx) := w in
      let fieldNum := int32 (Z.shiftr wire 3) in
      let wireType := Z.land wire 0x7 in
      let field (name : string) (unmarshal : bytes -> res isMessage_Sum) :=
        if negb (wireType =? 2) then
          Fail (fmt_Errorf "proto: wrong wireType = %d for field %s"
                  [ArgInt wireType; ArgString name])
        else
          w <-- read_length dAtA iNdEx ;;
          let '(iNdEx, postIndex) := w in
          v <-- unmarshal (slice dAtA iNdEx postIndex) ;;
          Message_Unmarshal_loop k {| Sum := Some v |} dAtA postIndex in
      if wireType =? 4 then
        Fail (fmt_Errorf "proto: Message: wiretype end group for non-group" [])
      else if fieldNum <=? 0 then
        Fail (fmt_Errorf "proto: Message: illegal tag %d (wire type %d)"
                [ArgInt fieldNum; ArgInt wire])
      else if fieldNum =? 1 then
        field "BlockRequest" (fun d =>
          v <-- inner_Unmarshal v1_BlockRequest (zero v1_BlockRequest) d ;;
          Done (Message_BlockRequest (Some v)))
      else if fieldNum =? 2 then
        field "NoBlockResponse" (fun d =>
          v <-- inner_Unmarshal v1_NoBlockResponse (zero v1_NoBlockResponse) d ;;
          Done (Message_NoBlockResponse (Some v)))
      else if fieldNum =? 3 then
        field "BlockResponse" (fun d =>
          v <-- BlockResponse_Unmarshal {| BR_Block := None; BR_ExtCommit := None |} d ;;
          Done (Message_BlockResponse (Some v)))
      else if fieldNum =? 4 then
        field "StatusRequest" (fun d =>
          v <-- inner_Unmarshal v1_StatusRequest (zero v1_StatusRequest) d ;;
          Done (Message_StatusRequest (Some v)))
      else if fieldNum =? 5 then
        field "StatusResponse" (fun d =>
          v <-- inner_Unmarshal v1_StatusResponse (zero v1_StatusResponse) d ;;
          Done (Message_StatusResponse (Some v)))
      else
        iNdEx <-- skip_field dAtA preIndex ;;
        Message_Unmarshal_loop k m dAtA iNdEx
  end.

(** [Message.Unmarshal], lines 652-876: the receiver after the call, or
    the returned error. *)
Definition Message_Unmarshal (m : Message) (dAtA : bytes) : res Message :=
  Message_Unmarshal_loop (S (length dAtA)) m dAtA 0.

(** *** The wire format *)

(** The bytes of a varint, least significant group first, by arithmetic;
    ten groups cover a [uint64]. *)
Fixpoint varint_groups (fuel : nat) (v : Z) : bytes :=
  match fuel with
  | O => []
  | S k => if v >=? 128 then (v mod 128 + 128) :: varint_groups k (v / 128) else [v]
  end.

Definition varint (v : Z) : bytes := varint_groups 10 v.

(** A field that holds a message: tag byte, length, message. *)
Definition field_bytes (tag : Z) (payload : bytes) : bytes :=
  tag :: varint (len payload) ++ payload.

Definition BlockResponse_bytes (m : BlockResponse) : bytes :=
  match BR_Block m with
  | Some b => field_bytes 0xa (encoding v3_Block b)
  | None => []
  end ++
  match BR_ExtCommit m with
  | Some c => field_bytes 0x12 (encoding v3_ExtendedCommit c)
  | None => []
  end.

Definition Sum_bytes (s : isMessage_Sum) : bytes :=
  match s with
  | Message_BlockRequest (Some x) => field_bytes 0xa (encoding v1_BlockRequest x)
  | Message_NoBlockResponse (Some x) => field_bytes 0x12 (encoding v1_NoBlockResponse x)
  | Message_BlockResponse (Some x) => field_bytes 0x1a (BlockResponse_bytes x)
  | Message_StatusRequest (Some x) => field_bytes 0x22 (encoding v1_StatusRequest x)
  | Message_StatusResponse (Some x) => field_bytes 0x2a (encoding v1_StatusResponse x)
  | _ => []
  end.

Definition Message_bytes (m : Message) : bytes :=
  match Sum m with
  | Some s => Sum_bytes s
  | None => []
  end.

(** The wrapper holds a message: its pointer is not nil. *)
Definition inner_present (s : isMessage_Sum) : Prop :=
  match s with
  | Message_BlockRequest x => x <> None
  | Message_NoBlockResponse x => x <> None
  | Message_BlockResponse x => x <> None
  | Message_StatusRequest x => x <> None
  | Message_StatusResponse x => x <> None
  end.

(** A marshalling method writes [payload]: it fills the end of the slice
    it is given with [payload], leaves the bytes before it, and returns
    the number of bytes written. *)
Definition writes (marshal : bytes -> res (bytes * Z)) (payload : bytes) : Prop :=
  forall pre slot, length slot = length payload ->
    marshal (pre ++ slot) = Done (pre ++ payload, len payload).

(** What is assumed of a message type of another package: unmarshalling
    its encoding into a zero value gives the message back. *)
Definition codec_ok (c : InnerMessage) : Prop :=
  forall x, Unmarshal c (zero c) (encoding c x) = inl x.

Definition Imported_ok : Prop :=
  codec_ok v1_BlockRequest /\ codec_ok v1_NoBlockResponse /\
  codec_ok v1_StatusRequest /\ codec_ok v1_StatusResponse /\
  codec_ok v3_Block /\ codec_ok v3_ExtendedCommit.

End Messages.

End Wire.

(** ** Sample data *)

(** A small instance of package [types], used to run the definitions on
    concrete inputs: a validator set is represented by its hash, the
    structural validation checks the chain identifier and that the
    commit is present and is for the header's height, and a block is
    hashed to its data. *)
Module Sample.

#[export] Instance types : TypesPkg :=
  {| ValidatorSet := bytes;
     ValidatorSet_Hash := fun v => v;
     SignedHeader_ValidateBasic := fun sh chainID =>
       match SH_Commit sh with
       | None => Some (errors_New "missing commit")
       | Some c =>
         if negb (String.eqb (ChainID (SH_Header sh)) chainID) then
           Some (fmt_Errorf "header belongs to another chain %q, not %q"
                   [ArgString (ChainID (SH_Header sh)); ArgString chainID])
         else if negb (CommitHeight c =? Height (SH_Header sh)) then
           Some (fmt_Errorf "header and commit height mismatch: %d vs %d"
                   [ArgInt (Height (SH_Header sh)); ArgInt (CommitHeight c)])
         else None
       end;
     Block_Hash := fun b => BlockData b;
     BlockPartSizeBytes := 65536 |}.

(** Headers of a chain ["c"]: height, time, validators hash and next
    validators hash. *)
Definition header (h t : Z) (vals next : bytes) : Header :=
  {| ChainID := "c"; Height := h; HeaderTime := t;
     ValidatorsHash := vals; NextValidatorsHash := next |}.

Definition signed (hd : Header) : SignedHeader :=
  {| SH_Header := hd;
     SH_Commit := Some {| CommitHeight := Height hd; CommitBlockHash := [] |} |}.

(** The trusted header at height 1 and a valid successor. *)
Definition T1 : SignedHeader := signed (header 1 100 [1] [2]).
Definition U2 : SignedHeader := signed (header 2 200 [2] [3]).

(** Successors that break one rule each: rule 2 (height 3), rule 4 (the
    time of [T1]), rule 5 (validators hash [[7]] against the supplied
    set [[2]]), rule 6 (validators hash [[7]], supplied set [[7]]). *)
Definition U2_far : SignedHeader := signed (header 3 200 [2] [3]).
Definition U2_same_time : SignedHeader := signed (header 2 100 [2] [3]).
Definition U2_other_vals : SignedHeader := signed (header 2 200 [7] [3]).

(** Validator sets, by their hashes. *)
Definition V2 : ValidatorSet := [2].
Definition V7 : ValidatorSet := [7].

(** Collaborators.  The store holds a block and a commit at height 5
    only; the pool answers [peek] to [PeekBlock], names peer ["A"] for a
    redone request and reports [caught] for [IsCaughtUp]; the store
    answers [stored] to [LoadBlock]; [time.Since] answers [since]; the
    executor accepts every block; the transport accepts every message. *)
Definition answers (peek : option BlockResponse) (stored : option Block)
  (caught : bool) (since : Z) : forall A, call A -> A :=
  fun A c =>
    match c in call A return A with
    | store_LoadBlockProto h => if h =? 5 then Some (bcproto.mk_tmBlock [5]) else None
    | store_LoadBlockCommitProto h => if h =? 5 then Some (bcproto.mk_tmCommit [5]) else None
    | store_LoadBlock _ => stored
    | store_LoadBlockCommit _ => None
    | store_Height => 5
    | store_Base => 1
    | store_SaveBlock _ _ _ => tt
    | ch_Send _ => None
    | ch_SendError _ => None
    | types_BlockFromProto _ => inr (externalError "nil block")
    | types_CommitFromProto _ => inr (externalError "nil commit")
    | block_Size _ => 0
    | block_MakePartSet b _ =>
      inl {| PartSet_Header := {| PSH_Total := 1; PSH_Hash := BlockData b |};
             PartSet_Parts := [BlockData b] |}
    | pool_AddBlock _ _ _ => tt
    | pool_SetPeerRange _ _ _ => tt
    | pool_PeekBlock => peek
    | pool_PopRequest => tt
    | pool_RedoRequest _ => "A"
    | pool_GetStatus => (2, 0, 0)
    | pool_LastAdvance => 0
    | pool_IsCaughtUp => caught
    | pool_MaxPeerHeight => 3
    | pool_height => 2
    | pool_Stop => tt
    | blockSync_UnSet => tt
    | consReactor_SwitchToConsensus _ _ => tt
    | blockExec_ApplyBlock st _ _ => inl st
    | metrics_RecordConsMetrics _ => tt
    | time_Since _ => since
    | time_Now => 0
    end.

Definition no_panic : forall A, call A -> option string := fun _ _ => None.

(** The pool panics when it is told a peer's range. *)
Definition SetPeerRange_panics : forall A, call A -> option string :=
  fun A c => match c with pool_SetPeerRange _ _ _ => Some "boom" | _ => None end.

Definition env (peek : option BlockResponse) (stored : option Block)
  (caught : bool) (since : Z) : Env :=
  {| answer := answers peek stored caught since; panics := no_panic |}.

Definition env_SetPeerRange_panics : Env :=
  {| answer := answers None None false 0; panics := SetPeerRange_panics |}.

(** A status response of peer ["B"]. *)
Definition status_of_B : Envelope :=
  {| From := "B"; To := ""; Broadcast := false;
     Message := bcproto.StatusResponse 9 1 |}.

Definition block_of (sh : SignedHeader) : Block :=
  {| BlockHeader := SH_Header sh; BlockData := [Height (SH_Header sh)]; LastCommit := None |}.

Definition response_of (sh : SignedHeader) : BlockResponse :=
  {| block := Some (block_of sh); commit := SH_Commit sh |}.

(** The state after height [h], with validators [vals] and next
    validators [next]. *)
Definition state_at (h : Z) (vals next : bytes) : State :=
  {| State_ChainID := "c"; InitialHeight := 1; LastBlockHeight := h;
     Validators := vals; NextValidators := next; AppHash := [] |}.

Definition reactor (st : State) (trusted : option BlockResponse) (cons : bool) : Reactor :=
  {| initialState := st; lastTrustedBlock := trusted; consReactor_set := cons;
     blockSyncCh_ID := BlockSyncChannel |}.

Definition locals (st : State) (synced : Z) : Locals :=
  {| state := st; blocksSynced := synced; lastHundred := 0; didProcessCh := false |}.

End Sample.

(** Message types kept as their encodings, for running the wire code on
    concrete messages. *)
Module SampleWire.

Definition raw : Wire.InnerMessage :=
  {| Wire.carrier := bytes;
     Wire.zero := [];
     Wire.encoding := fun x => x;
     Wire.Unmarshal := fun _ d => inl d |}.

#[export] Instance imported : Wire.Imported :=
  {| Wire.v1_BlockRequest := raw;
     Wire.v1_NoBlockResponse := raw;
     Wire.v1_StatusRequest := raw;
     Wire.v1_StatusResponse := raw;
     Wire.v3_Block := raw;
     Wire.v3_ExtendedCommit := raw |}.

(** A block request whose encoding is [8; 5] (height 5), a block
    response with a block and no commit, and a request wrapper that
    holds a nil pointer. *)
Definition request : Wire.Message :=
  {| Wire.Sum := Some (Wire.Message_BlockRequest (Some [8; 5])) |}.

Definition response : Wire.Message :=
  {| Wire.Sum := Some (Wire.Message_BlockResponse
       (Some {| Wire.BR_Block := Some [1; 2; 3]; Wire.BR_ExtCommit := None |})) |}.

Definition nil_request : Wire.Message :=
  {| Wire.Sum := Some (Wire.Message_BlockRequest None) |}.

Definition fresh : Wire.Message := {| Wire.Sum := None |}.

End SampleWire.

(** ** Further observations on a trace *)

Section Observations.
Context `{TypesPkg}.

(** The event is a call of a collaborator. *)
Definition is_call (e : event) : bool :=
  match e with Ev _ => true | _ => false end.

(** The blocks handed to [pool.AddBlock], with the peer and the size. *)
Definition added (t : list event) : list (NodeID * BlockResponse * Z) :=
  flat_map (fun e => match e with
                     | Ev c => match c with
                               | pool_AddBlock peer br size => [(peer, br, size)]
                               | _ => []
                               end
                     | _ => []
                     end) t.

(** The ranges handed to [pool.SetPeerRange]: peer, base, height. *)
Definition ranges (t : list event) : list (NodeID * Z * Z) :=
  flat_map (fun e => match e with
                     | Ev c => match c with
                               | pool_SetPeerRange peer base height => [(peer, base, height)]
                               | _ => []
                               end
                     | _ => []
                     end) t.

(** The error, if any, is one of the two context errors, possibly
    wrapped: the test of [processBlockSyncCh]. *)
Definition is_context_error (e : error) : bool :=
  errors_Is e context_Canceled || errors_Is e context_DeadlineExceeded.

End Observations.

(** * Properties *)

(** ** Machine integers *)

Lemma wrap64_id z : Int.in_int64 z -> Int.wrap64 z = z.
Proof.
  unfold Int.in_int64, Int.wrap64, Int.MinInt64, Int.MaxInt64, Int.two64, Int.two63.
  intros Hz. rewrite Z.mod_small; lia.
Qed.

Lemma wrap64_range z : Int.in_int64 (Int.wrap64 z).
Proof.
  unfold Int.in_int64, Int.wrap64, Int.MinInt64, Int.MaxInt64.
  assert (0 <= (z + Int.two63) mod Int.two64 < Int.two64)
    by (apply Z.mod_pos_bound; reflexivity).
  unfold Int.two64, Int.two63 in *. lia.
Qed.

(** An [int64] is the successor of another, with [+] wrapping, and is
    greater than it, exactly when it is its mathematical successor. *)
Lemma adjacent_int64 t u :
  Int.in_int64 t -> Int.in_int64 u ->
  (u = Int.wrap64 (t + 1) /\ t < u) <-> u = t + 1.
Proof.
  intros Ht Hu. split.
  - intros [E Hlt]. destruct (Z.eq_dec t Int.MaxInt64) as [->|Hne].
    + unfold Int.in_int64 in Hu. lia.
    + rewrite wrap64_id in E; [exact E|].
      unfold Int.in_int64 in *. lia.
  - intros ->. split; [|lia]. symmetry. apply wrap64_id. exact Hu.
Qed.

(** ** The adjacent verifier *)

Section VerifierFacts.
Context `{TypesPkg}.

Lemma bytes_Equal_true a b : bytes_Equal a b = true <-> a = b.
Proof. unfold bytes_Equal. apply bool_decide_eq_true. Qed.

Lemma bytes_Equal_false a b : bytes_Equal a b = false <-> a <> b.
Proof. unfold bytes_Equal. apply bool_decide_eq_false. Qed.

Lemma empty_hash_length (b : bytes) : length b = 0%nat <-> b = [].
Proof. destruct b; simpl; split; congruence. Qed.

Lemma VerifyAdjacent_None T U V :
  Int.in_int64 (Height (SH_Header T)) ->
  Int.in_int64 (Height (SH_Header U)) ->
  VerifyAdjacent T U V = None <-> all_rules T U V.
Proof.
  intros HT HU.
  pose proof (adjacent_int64 _ _ HT HU) as Hadj.
  unfold all_rules, rule1, rule2, rule3, rule4, rule5, rule6, VerifyAdjacent.
  cbv zeta.
  case_bool_decide as E1.
  { apply empty_hash_length in E1. split; [discriminate|]. intros [? _]. congruence. }
  assert (NextValidatorsHash (SH_Header T) <> []) as N1
    by (intros E; apply E1; rewrite E; reflexivity).
  destruct (Height (SH_Header U) =? Int.wrap64 (Height (SH_Header T) + 1)) eqn:E2; simpl.
  2:{ apply Z.eqb_neq in E2. split; [discriminate|].
      intros (_ & R2 & _). apply Hadj in R2. tauto. }
  apply Z.eqb_eq in E2.
  destruct (SignedHeader_ValidateBasic U (ChainID (SH_Header T))) as [err|] eqn:E3.
  { split; [discriminate|]. intros (_ & _ & R3 & _). discriminate. }
  destruct (Height (SH_Header U) <=? Height (SH_Header T)) eqn:E4.
  { apply Z.leb_le in E4. split; [discriminate|]. intros (_ & R2 & _). lia. }
  apply Z.leb_gt in E4.
  assert (Height (SH_Header U) = Height (SH_Header T) + 1) as R2
    by (apply Hadj; split; assumption).
  unfold Time_After.
  destruct (HeaderTime (SH_Header T) <? HeaderTime (SH_Header U)) eqn:E5; simpl.
  2:{ apply Z.ltb_ge in E5. split; [discriminate|]. intros (_ & _ & _ & R4 & _). lia. }
  apply Z.ltb_lt in E5.
  destruct (bytes_Equal (ValidatorsHash (SH_Header U)) (ValidatorSet_Hash V)) eqn:E6; simpl.
  2:{ apply bytes_Equal_false in E6. split; [discriminate|]. tauto. }
  apply bytes_Equal_true in E6.
  destruct (bytes_Equal (ValidatorsHash (SH_Header U)) (NextValidatorsHash (SH_Header T)))
    eqn:E7; simpl.
  2:{ apply bytes_Equal_false in E7. split; [discriminate|]. tauto. }
  apply bytes_Equal_true in E7. tauto.
Qed.

(** C2.  For signed headers whose heights are [int64] values,
    [VerifyAdjacent] returns nil exactly when the six rules hold: the
    trusted next-validators hash is non-empty, the untrusted height is
    the trusted height plus one, the untrusted header passes
    [ValidateBasic] against the trusted chain identifier, the untrusted
    time is strictly after the trusted time, the untrusted validators
    hash is the hash of the supplied validator set, and it is the
    trusted next-validators hash.  For every input that breaks one of
    the rules it returns an error. *)
Theorem VerifyAdjacent_success_iff T U V :
  Int.in_int64 (Height (SH_Header T)) ->
  Int.in_int64 (Height (SH_Header U)) ->
  (VerifyAdjacent T U V = None <-> all_rules T U V) /\
  (~ all_rules T U V -> exists err, VerifyAdjacent T U V = Some err).
Proof.
  intros HT HU. pose proof (VerifyAdjacent_None T U V HT HU) as Hiff.
  split; [exact Hiff|].
  intros Hbad. destruct (VerifyAdjacent T U V) as [err|] eqn:E.
  - exists err. reflexivity.
  - exfalso. apply Hbad, Hiff. reflexivity.
Qed.

End VerifierFacts.

(** The valid successor of the sample data passes the verifier. *)
Lemma VerifyAdjacent_success_iff_witness :
  (VerifyAdjacent Sample.T1 Sample.U2 Sample.V2 = None <->
   all_rules Sample.T1 Sample.U2 Sample.V2) /\
  (~ all_rules Sample.T1 Sample.U2 Sample.V2 ->
   exists err, VerifyAdjacent Sample.T1 Sample.U2 Sample.V2 = Some err).
Proof.
  apply (VerifyAdjacent_success_iff Sample.T1 Sample.U2 Sample.V2);
    vm_compute; split; discriminate.
Defined.

Section VerifierTags.
Context `{TypesPkg}.

(** The first rule an input breaks decides the error that is returned. *)
Lemma VerifyAdjacent_cases T U V :
  Int.in_int64 (Height (SH_Header T)) ->
  Int.in_int64 (Height (SH_Header U)) ->
  forall e, VerifyAdjacent T U V = Some e ->
  (~ rule1 T /\ type_of e = T_errors_errorString) \/
  (rule1 T /\ ~ rule2 T U /\ type_of e = T_errors_errorString) \/
  (rule1 T /\ ~ rule3 T U /\ type_of e = T_fmt_wrapError) \/
  (rule1 T /\ rule2 T U /\ rule3 T U /\ ~ rule4 T U /\ type_of e = T_errors_errorString) \/
  (rule1 T /\ rule2 T U /\ rule3 T U /\ rule4 T U /\ ~ rule5 U V /\
   type_of e = T_errors_errorString) \/
  (rule1 T /\ rule2 T U /\ rule3 T U /\ rule4 T U /\ rule5 U V /\ ~ rule6 T U /\
   type_of e = T_light_ErrInvalidHeader).
Proof.
  intros HT HU e.
  pose proof (adjacent_int64 _ _ HT HU) as Hadj.
  unfold rule1, rule2, rule3, rule4, rule5, rule6, VerifyAdjacent.
  cbv zeta.
  case_bool_decide as E1.
  { apply empty_hash_length in E1. intros [= <-]. left. split; [tauto|reflexivity]. }
  assert (NextValidatorsHash (SH_Header T) <> []) as N1
    by (intros E; apply E1; rewrite E; reflexivity).
  destruct (Height (SH_Header U) =? Int.wrap64 (Height (SH_Header T) + 1)) eqn:E2; simpl.
  2:{ apply Z.eqb_neq in E2. intros [= <-]. right; left.
      repeat split; [assumption|]. intros R2. apply Hadj in R2. tauto. }
  apply Z.eqb_eq in E2.
  destruct (SignedHeader_ValidateBasic U (ChainID (SH_Header T))) as [err|] eqn:E3.
  { intros [= <-]. right; right; left. repeat split; [assumption|discriminate]. }
  destruct (Height (SH_Header U) <=? Height (SH_Header T)) eqn:E4.
  { apply Z.leb_le in E4. intros [= <-]. right; left.
    repeat split; [assumption|]. lia. }
  apply Z.leb_gt in E4.
  assert (Height (SH_Header U) = Height (SH_Header T) + 1) as R2
    by (apply Hadj; split; assumption).
  unfold Time_After.
  destruct (HeaderTime (SH_Header T) <? HeaderTime (SH_Header U)) eqn:E5; simpl.
  2:{ apply Z.ltb_ge in E5. intros [= <-]. do 3 right; left.
      repeat split; try assumption. lia. }
  apply Z.ltb_lt in E5.
  destruct (bytes_Equal (ValidatorsHash (SH_Header U)) (ValidatorSet_Hash V)) eqn:E6; simpl.
  2:{ apply bytes_Equal_false in E6. intros [= <-]. do 4 right; left.
      repeat split; assumption. }
  apply bytes_Equal_true in E6.
  destruct (bytes_Equal (ValidatorsHash (SH_Header U)) (NextValidatorsHash (SH_Header T)))
    eqn:E7; simpl.
  2:{ apply bytes_Equal_false in E7. intros [= <-]. do 5 right.
      repeat split; assumption. }
  discriminate.
Qed.

Lemma is_ErrInvalidHeader_type e :
  is_ErrInvalidHeader e = true <-> type_of e = T_light_ErrInvalidHeader.
Proof. destruct e; simpl; split; congruence. Qed.

(** C3, as amended.  Of the errors of [VerifyAdjacent], exactly those of
    a rule 6 failure with rules 1 to 5 satisfied are tagged
    [light.ErrInvalidHeader].  A failure of rule 4 or of rule 5, the
    earlier rules satisfied, returns a plain error of the type of the
    error of a rule 2 failure on a header that passes [ValidateBasic],
    and a rule 3 failure, rules 1 and 2 satisfied, returns an error that
    wraps the one of [ValidateBasic]; none of them carries the tag. *)
Theorem VerifyAdjacent_tag T U V e :
  Int.in_int64 (Height (SH_Header T)) ->
  Int.in_int64 (Height (SH_Header U)) ->
  VerifyAdjacent T U V = Some e ->
  (is_ErrInvalidHeader e = true <->
   rule1 T /\ rule2 T U /\ rule3 T U /\ rule4 T U /\ rule5 U V /\ ~ rule6 T U) /\
  (rule1 T /\ rule2 T U /\ rule3 T U /\ (~ rule4 T U \/ rule4 T U /\ ~ rule5 U V) ->
   type_of e = T_errors_errorString) /\
  (~ rule2 T U /\ rule3 T U -> type_of e = T_errors_errorString) /\
  (rule1 T /\ rule2 T U /\ ~ rule3 T U -> type_of e = T_fmt_wrapError).
Proof.
  intros HT HU He.
  pose proof (VerifyAdjacent_cases T U V HT HU e He) as Hc.
  rewrite is_ErrInvalidHeader_type.
  split; [split|split; [|split]].
  - intros Ht. rewrite Ht in Hc.
    destruct Hc as [C|[C|[C|[C|[C|C]]]]]; try (exfalso; intuition congruence).
    tauto.
  - intros Hr. destruct Hc as [C|[C|[C|[C|[C|C]]]]]; tauto.
  - intros Hr. destruct Hc as [C|[C|[C|[C|[C|C]]]]]; tauto.
  - intros Hr. destruct Hc as [C|[C|[C|[C|[C|C]]]]]; tauto.
  - intros Hr. destruct Hc as [C|[C|[C|[C|[C|C]]]]]; tauto.
Qed.

End VerifierTags.

(** The tag on the sample data: the successor whose validators hash is
    the hash of the supplied set but not the trusted next-validators
    hash breaks rule 6 alone and gets the tag. *)
Lemma VerifyAdjacent_tag_witness :
  exists e,
    VerifyAdjacent Sample.T1 Sample.U2_other_vals Sample.V7 = Some e /\
    is_ErrInvalidHeader e = true /\
    ~ rule6 Sample.T1 Sample.U2_other_vals.
Proof.
  eexists. split; [reflexivity|].
  pose proof (VerifyAdjacent_tag Sample.T1 Sample.U2_other_vals Sample.V7 _
    ltac:(vm_compute; split; discriminate)
    ltac:(vm_compute; split; discriminate)
    eq_refl) as [Htag _].
  split; [reflexivity|]. apply Htag. reflexivity.
Defined.

(** C3 fails as stated.  On the sample data the successor that repeats
    the trusted time satisfies rules 1 to 3 and breaks rule 4, and the
    successor at height 3 breaks rule 2: the two errors have the same
    type, and the rule 4 error is not tagged [light.ErrInvalidHeader],
    so no tag on the error type tells the first from the second. *)
Lemma VerifyAdjacent_tag_counterexample :
  rule1 Sample.T1 /\
  rule2 Sample.T1 Sample.U2_same_time /\
  rule3 (H := Sample.types) Sample.T1 Sample.U2_same_time /\
  ~ rule4 Sample.T1 Sample.U2_same_time /\
  ~ rule2 Sample.T1 Sample.U2_far /\
  exists e4 e2,
    VerifyAdjacent Sample.T1 Sample.U2_same_time Sample.V2 = Some e4 /\
    VerifyAdjacent Sample.T1 Sample.U2_far Sample.V2 = Some e2 /\
    is_ErrInvalidHeader e4 = false /\
    type_of e4 = type_of e2.
Proof.
  split; [discriminate|].
  split; [reflexivity|].
  split; [reflexivity|].
  split; [unfold rule4; simpl; lia|].
  split; [discriminate|].
  do 2 eexists. repeat split; reflexivity.
Qed.

(** ** Constants and channel descriptor *)

(** C9.  The channel descriptor is for channel 0x40 with priority 5, a
    send queue of 1000 and a receive buffer of 1024 (the message size cap
    being the package constant [MaxMsgSize]); the status-update ticker
    runs every 10 s, the switch-to-consensus ticker every 1 s, the sync
    timeout is 60 s and the try-sync ticker runs every 10 ms. *)
Theorem channel_descriptor_and_intervals MaxMsgSize :
  CD_ID (GetChannelDescriptor MaxMsgSize) = 0x40 /\
  CD_Priority (GetChannelDescriptor MaxMsgSize) = 5 /\
  CD_SendQueueCapacity (GetChannelDescriptor MaxMsgSize) = 1000 /\
  CD_RecvBufferCapacity (GetChannelDescriptor MaxMsgSize) = 1024 /\
  CD_RecvMessageCapacity (GetChannelDescriptor MaxMsgSize) = MaxMsgSize /\
  statusUpdateTicker_period = 10 * 10 ^ 9 /\
  switchToConsensusTicker_period = 1 * 10 ^ 9 /\
  syncTimeout = 60 * 10 ^ 9 /\
  trySyncTicker_period = 10 * 10 ^ 6.
Proof. repeat split; reflexivity. Qed.

(** ** Message handlers *)

Section HandlerFacts.
Context `{TypesPkg}.

Lemma do_quiet {A} (c : call A) env :
  panics env A c = None -> do c env = ([Ev c], Ret (answer env A c)).
Proof. intros Hq. unfold do. rewrite Hq. reflexivity. Qed.

Lemma respondToPeer_sends env height peerID :
  panics env _ (store_LoadBlockProto height) = None ->
  panics env _ (store_LoadBlockCommitProto height) = None ->
  sends (trace_of (respondToPeer height peerID env)) =
    [{| From := ""; To := peerID; Broadcast := false;
        Message :=
          match answer env _ (store_LoadBlockProto height),
                answer env _ (store_LoadBlockCommitProto height) with
          | Some b, Some c => bcproto.BlockResponse (Some b) (Some c)
          | _, _ => bcproto.NoBlockResponse height
          end |}].
Proof.
  intros Hb Hc. unfold respondToPeer, bind, trace_of.
  rewrite (do_quiet _ _ Hb).
  destruct (answer env _ (store_LoadBlockProto height)) as [b|].
  - rewrite (do_quiet _ _ Hc).
    destruct (answer env _ (store_LoadBlockCommitProto height)) as [c|].
    + unfold do. reflexivity.
    + unfold do, emit. reflexivity.
  - unfold do, emit. reflexivity.
Qed.

(** C4.  For an inbound [BlockRequest] for [height], when the two loads
    from the store return, the handler makes exactly one call of [Send],
    addressed to the sender of the request: a [BlockResponse] with the
    block and the commit when the store holds both, and a
    [NoBlockResponse] for [height] when the block is missing or the
    block is present and the commit is missing. *)
Theorem BlockRequest_answered_once env envelope height :
  Message envelope = bcproto.BlockRequest height ->
  panics env _ (store_LoadBlockProto height) = None ->
  panics env _ (store_LoadBlockCommitProto height) = None ->
  sends (trace_of (handleBlockSyncMessage envelope env)) =
    [{| From := ""; To := From envelope; Broadcast := false;
        Message :=
          match answer env _ (store_LoadBlockProto height),
                answer env _ (store_LoadBlockCommitProto height) with
          | Some b, Some c => bcproto.BlockResponse (Some b) (Some c)
          | _, _ => bcproto.NoBlockResponse height
          end |}].
Proof.
  intros Hm Hb Hc. unfold handleBlockSyncMessage. rewrite Hm.
  apply respondToPeer_sends; assumption.
Qed.

End HandlerFacts.

(** The store holds the block and the commit at height 5: a request for
    it by peer ["B"] is answered with one [BlockResponse] to ["B"]. *)
Lemma BlockRequest_answered_once_witness :
  sends (trace_of (handleBlockSyncMessage
           {| From := "B"; To := ""; Broadcast := false;
              Message := bcproto.BlockRequest 5 |}
           (Sample.env None None false 0))) =
    [{| From := ""; To := "B"; Broadcast := false;
        Message := bcproto.BlockResponse (Some (bcproto.mk_tmBlock [5]))
                     (Some (bcproto.mk_tmCommit [5])) |}].
Proof.
  apply (BlockRequest_answered_once (Sample.env None None false 0)
           {| From := "B"; To := ""; Broadcast := false;
              Message := bcproto.BlockRequest 5 |} 5); reflexivity.
Defined.

Section PanicFacts.
Context `{TypesPkg}.

(** Unfolding of the monad, one case per collaborator result. *)
Ltac run :=
  unfold handleMessage, handleBlockSyncMessage, respondToPeer,
    with_recover, bind, do, emit, ret, panic, trace_of, outcome_of in *;
  repeat (case_match; simpl in *; simplify_eq); simpl in *.

(** The handlers never report a peer error themselves. *)
Lemma handleBlockSyncMessage_no_peer_error envelope env :
  peer_errors (trace_of (handleBlockSyncMessage envelope env)) = [].
Proof. run; reflexivity. Qed.

(** The deferred [recover] of [handleMessage]: a panic of the handler
    becomes the returned error. *)
Lemma handleMessage_recovers envelope env t v :
  handleBlockSyncMessage envelope env = (t, Panic v) ->
  handleMessage BlockSyncChannel envelope env =
    (((Log "debug" "received message" :: t) ++
      [Log "error" "recovering from processing message panic"])%list,
     Ret (Some (fmt_Errorf "panic in processing message: %v" [ArgPanic v]))).
Proof.
  intros Hp. unfold handleMessage, with_recover, bind, emit, ret.
  rewrite Z.eqb_refl, Hp. reflexivity.
Qed.

(** [handleMessage] returns, whatever the handler and the collaborators
    do. *)
Lemma handleMessage_returns chID envelope env :
  exists err, outcome_of (handleMessage chID envelope env) = Ret err.
Proof.
  unfold handleMessage, with_recover, outcome_of.
  destruct (bind _ _ env) as [t [a|v]]; simpl; eauto.
Qed.

Lemma processEnvelope_returns r envelope env :
  (forall pe, panics env _ (ch_SendError pe) = None) ->
  exists n, outcome_of (processEnvelope r envelope env) = Ret n.
Proof.
  intros Hs. unfold processEnvelope.
  destruct (handleMessage_returns (blockSyncCh_ID r) envelope env) as [err Herr].
  unfold outcome_of in *. unfold bind at 1.
  destruct (handleMessage _ _ env) as [t o]. simpl in Herr. subst o.
  destruct err as [e|]; [|simpl; eauto].
  destruct (errors_Is e context_Canceled || errors_Is e context_DeadlineExceeded);
    [simpl; eauto|].
  unfold bind, emit, do, ret. rewrite Hs. simpl.
  destruct (answer env _ _); simpl; eauto.
Qed.

Lemma processBlockSyncCh_returns r envelopes env :
  (forall pe, panics env _ (ch_SendError pe) = None) ->
  exists u, outcome_of (processBlockSyncCh r envelopes env) = Ret u.
Proof.
  intros Hs. induction envelopes as [|envelope rest IH]; simpl.
  - eexists. reflexivity.
  - destruct (processEnvelope_returns r envelope env Hs) as [n Hn].
    unfold outcome_of in *. unfold bind.
    destruct (processEnvelope r envelope env) as [t o]. simpl in Hn. subst o.
    destruct n.
    + destruct IH as [u Hu]. destruct (processBlockSyncCh r rest env) as [t' o'].
      simpl in *. eauto.
    + simpl. eauto.
Qed.

Lemma peer_errors_app (t u : list event) :
  peer_errors (t ++ u) = peer_errors t ++ peer_errors u.
Proof. unfold peer_errors. apply flat_map_app. Qed.

(** The loop of [processBlockSyncCh] at an envelope: the envelope is
    handled, and the loop goes on with the envelopes after it exactly
    when the iteration says so. *)
Lemma processBlockSyncCh_cons r envelope rest env :
  processBlockSyncCh r (envelope :: rest) env =
    match processEnvelope r envelope env with
    | (t, Ret Continue) =>
      (t ++ trace_of (processBlockSyncCh r rest env),
       outcome_of (processBlockSyncCh r rest env))
    | (t, Ret Return) => (t, Ret tt)
    | (t, Panic v) => (t, Panic v)
    end.
Proof.
  cbn [processBlockSyncCh]. unfold bind, trace_of, outcome_of.
  destruct (processEnvelope r envelope env) as [t [[|]|v]]; simpl.
  - destruct (processBlockSyncCh r rest env). reflexivity.
  - unfold ret. simpl. rewrite app_nil_r. reflexivity.
  - reflexivity.
Qed.

(** The loop over envelopes that are all handled and followed by more:
    it reaches the envelopes after them. *)
Lemma processBlockSyncCh_reaches r before l env :
  Forall (fun e => outcome_of (processEnvelope r e env) = Ret Continue) before ->
  processBlockSyncCh r (before ++ l) env =
    (trace_of (processBlockSyncCh r before env) ++ trace_of (processBlockSyncCh r l env),
     outcome_of (processBlockSyncCh r l env)).
Proof.
  induction 1 as [|e before He Hbefore IH].
  - unfold trace_of, outcome_of. simpl. destruct (processBlockSyncCh r l env). reflexivity.
  - change ((e :: before) ++ l) with (e :: (before ++ l)).
    rewrite (processBlockSyncCh_cons r e (before ++ l)).
    rewrite (processBlockSyncCh_cons r e before).
    unfold outcome_of in He.
    destruct (processEnvelope r e env) as [t o]. simpl in He. subst o.
    rewrite IH. unfold trace_of, outcome_of. simpl. rewrite app_assoc. reflexivity.
Qed.

(** C7.  When the handler of an envelope panics, [handleMessage]
    recovers the panic and returns it as an ordinary error;
    [processBlockSyncCh] then reports exactly one peer error, naming the
    sender of the envelope and carrying that error, and the iteration
    returns; and, [SendError] itself returning, no run of
    [processBlockSyncCh] over any envelopes ends in a panic.  In the
    loop of [processBlockSyncCh] itself: whenever it reaches the
    envelope (the envelopes before it were handled and the loop went
    on), the peer errors it sends are those of the envelopes before,
    then this one for the sender, then, when the peer error was sent,
    those of the envelopes after, and nothing more when sending it
    failed. *)
Theorem handler_panic_becomes_peer_error env r envelope t v :
  blockSyncCh_ID r = BlockSyncChannel ->
  handleBlockSyncMessage envelope env = (t, Panic v) ->
  (forall pe, panics env _ (ch_SendError pe) = None) ->
  outcome_of (handleMessage (blockSyncCh_ID r) envelope env) =
    Ret (Some (fmt_Errorf "panic in processing message: %v" [ArgPanic v])) /\
  peer_errors (trace_of (processEnvelope r envelope env)) =
    [{| PE_NodeID := From envelope;
        PE_Err := fmt_Errorf "panic in processing message: %v" [ArgPanic v] |}] /\
  (exists n, outcome_of (processEnvelope r envelope env) = Ret n) /\
  (forall envelopes, exists u, outcome_of (processBlockSyncCh r envelopes env) = Ret u) /\
  (forall before rest,
     Forall (fun e => outcome_of (processEnvelope r e env) = Ret Continue) before ->
     let pe := {| PE_NodeID := From envelope;
                  PE_Err := fmt_Errorf "panic in processing message: %v" [ArgPanic v] |} in
     peer_errors (trace_of (processBlockSyncCh r (before ++ envelope :: rest) env)) =
       peer_errors (trace_of (processBlockSyncCh r before env)) ++
       pe :: match answer env _ (ch_SendError pe) with
             | None => peer_errors (trace_of (processBlockSyncCh r rest env))
             | Some _ => []
             end).
Proof.
  intros Hch Hp Hs.
  pose proof (handleMessage_recovers envelope env t v Hp) as Hrec.
  pose proof (handleBlockSyncMessage_no_peer_error envelope env) as Hnone.
  rewrite Hp in Hnone. unfold trace_of in Hnone. simpl in Hnone.
  set (pe := {| PE_NodeID := From envelope;
                PE_Err := fmt_Errorf "panic in processing message: %v" [ArgPanic v] |}).
  assert (processEnvelope r envelope env =
            (((Log "debug" "received message" :: t) ++
              [Log "error" "recovering from processing message panic"]) ++
             [Log "error" "failed to process message"; Ev (ch_SendError pe)],
             Ret (match answer env _ (ch_SendError pe) with
                  | None => Continue
                  | Some _ => Return
                  end))) as Hone.
  { unfold processEnvelope, bind at 1. rewrite Hch, Hrec. simpl.
    unfold bind, emit, do, ret. rewrite Hs. simpl. fold pe.
    destruct (answer env _ (ch_SendError pe)); reflexivity. }
  assert (peer_errors (trace_of (processEnvelope r envelope env)) = [pe]) as Hpe.
  { rewrite Hone. unfold trace_of. simpl.
    rewrite !peer_errors_app. simpl. rewrite Hnone. reflexivity. }
  split; [rewrite Hch, Hrec; reflexivity|].
  split; [exact Hpe|].
  split; [apply processEnvelope_returns; assumption|].
  split; [intros envelopes; apply processBlockSyncCh_returns; assumption|].
  intros before rest Hbefore. cbv zeta. fold pe.
  rewrite (processBlockSyncCh_reaches r before (envelope :: rest) env Hbefore).
  unfold trace_of at 1. cbn [fst]. rewrite peer_errors_app. f_equal.
  rewrite processBlockSyncCh_cons.
  rewrite Hone in Hpe. unfold trace_of in Hpe. cbn [fst] in Hpe.
  rewrite Hone.
  destruct (answer env _ (ch_SendError pe)); unfold trace_of; cbn [fst].
  - exact Hpe.
  - rewrite peer_errors_app, Hpe. reflexivity.
Qed.

End PanicFacts.

(** The pool panics on the status response of peer ["B"]: the panic is
    turned into a peer error for ["B"]; and when the loop is given the
    status request of a peer ["C"] and then the status response of
    ["B"] twice, it reports ["B"] for each of the two. *)
Lemma handler_panic_becomes_peer_error_witness :
  peer_errors (trace_of (processEnvelope
     (Sample.reactor (Sample.state_at 0 [1] [1]) None true)
     Sample.status_of_B Sample.env_SetPeerRange_panics)) =
    [{| PE_NodeID := "B";
        PE_Err := fmt_Errorf "panic in processing message: %v"
                    [ArgPanic (CollaboratorPanic "boom")] |}] /\
  peer_errors (trace_of (processBlockSyncCh
     (Sample.reactor (Sample.state_at 0 [1] [1]) None true)
     [{| From := "C"; To := ""; Broadcast := false; Message := bcproto.StatusRequest |};
      Sample.status_of_B; Sample.status_of_B]
     Sample.env_SetPeerRange_panics)) =
    [{| PE_NodeID := "B";
        PE_Err := fmt_Errorf "panic in processing message: %v"
                    [ArgPanic (CollaboratorPanic "boom")] |};
     {| PE_NodeID := "B";
        PE_Err := fmt_Errorf "panic in processing message: %v"
                    [ArgPanic (CollaboratorPanic "boom")] |}].
Proof.
  destruct (handler_panic_becomes_peer_error Sample.env_SetPeerRange_panics
              (Sample.reactor (Sample.state_at 0 [1] [1]) None true)
              Sample.status_of_B
              [Ev (pool_SetPeerRange "B" 1 9)] (CollaboratorPanic "boom")
              eq_refl eq_refl (fun _ => eq_refl)) as (_ & Hone & _ & _ & Hloop).
  split; [exact Hone|].
  exact (Hloop
           [{| From := "C"; To := ""; Broadcast := false;
               Message := bcproto.StatusRequest |}]
           [Sample.status_of_B]
           ltac:(repeat constructor)).
Defined.

(** ** The driver loop *)

Section DriverFacts.
Context `{TypesPkg}.

(** With quiet collaborators every call returns its answer. *)
Ltac quiet_run Hq :=
  unfold bind, do, emit, ret, panic, trace_of, outcome_of;
  rewrite ?Hq; simpl.

(** C6, as amended.  On a tick of the switch-to-consensus ticker, the
    collaborators returning, the driver stops the pool, clears the
    block-sync flag and leaves the loop exactly when the pool is caught
    up or the time since its last advance exceeds [syncTimeout];
    otherwise it does neither and goes round again.  It invokes the
    consensus handoff, once and with its current state, exactly when in
    addition a consensus reactor is set. *)
Theorem switch_tick_handoff env r stateSynced l :
  quiet env ->
  let switch :=
    answer env _ pool_IsCaughtUp ||
    (answer env _ (time_Since (answer env _ pool_LastAdvance)) >? syncTimeout) in
  let run := switchToConsensusTick r stateSynced l env in
  outcome_of run = Ret (if switch then Return else Continue) /\
  count is_pool_Stop (trace_of run) = (if switch then 1 else 0)%nat /\
  count is_blockSync_UnSet (trace_of run) = (if switch then 1 else 0)%nat /\
  handoffs (trace_of run) =
    if switch && consReactor_set r
    then [(state l, (blocksSynced l >? 0) || stateSynced)]
    else [].
Proof.
  intros Hq. unfold switchToConsensusTick. quiet_run Hq.
  destruct (answer env _ pool_IsCaughtUp); simpl.
  - rewrite ?Hq. destruct (consReactor_set r); simpl; rewrite ?Hq; simpl;
      repeat split; reflexivity.
  - rewrite ?Hq. simpl.
    destruct (answer env _ (time_Since _) >? syncTimeout); simpl; rewrite ?Hq; simpl.
    + destruct (consReactor_set r); simpl; rewrite ?Hq; simpl; repeat split; reflexivity.
    + repeat split; reflexivity.
Qed.

End DriverFacts.

Lemma Sample_env_quiet peek stored caught since :
  quiet (Sample.env peek stored caught since).
Proof. intros A c. reflexivity. Qed.

(** A stalled sync (61 s since the last advance, not caught up) with a
    consensus reactor set: the handoff is invoked with the current
    state. *)
Lemma switch_tick_handoff_witness :
  handoffs (trace_of (switchToConsensusTick
     (Sample.reactor (Sample.state_at 0 [1] [1]) None true) false
     (Sample.locals (Sample.state_at 2 [1] [1]) 2)
     (Sample.env None None false (61 * time_Second)))) =
    [(Sample.state_at 2 [1] [1], true)].
Proof.
  pose proof (switch_tick_handoff
    (Sample.env None None false (61 * time_Second))
    (Sample.reactor (Sample.state_at 0 [1] [1]) None true) false
    (Sample.locals (Sample.state_at 2 [1] [1]) 2)
    (Sample_env_quiet _ _ _ _)) as (_ & _ & _ & Hh).
  exact Hh.
Defined.

(** C6 fails as stated.  A reactor without a consensus reactor, on a
    tick at which the pool is caught up, stops the pool and clears the
    flag and invokes no handoff. *)
Lemma switch_tick_handoff_counterexample :
  let env := Sample.env None None true 0 in
  let run := switchToConsensusTick
    (Sample.reactor (Sample.state_at 0 [1] [1]) None false) false
    (Sample.locals (Sample.state_at 2 [1] [1]) 2) env in
  answer env _ pool_IsCaughtUp = true /\
  count is_pool_Stop (trace_of run) = 1%nat /\
  count is_blockSync_UnSet (trace_of run) = 1%nat /\
  outcome_of run = Ret Return /\
  handoffs (trace_of run) = [].
Proof. repeat split; reflexivity. Qed.

Section BlockFacts.
Context `{TypesPkg}.

(** The check of a block when there is no trusted block to verify it
    against: the validators hash of the initial state decides. *)
Lemma checkBlock_no_trusted r l nb nblk env :
  (forall ltb, lastTrustedBlock r = Some ltb -> block ltb = None) ->
  checkBlock r l nb nblk env =
    if bytes_Equal (ValidatorSet_Hash (Validators (initialState r)))
         (ValidatorsHash (BlockHeader nblk))
    then ([], Ret true)
    else ([Println "initial hash new hash"
             [ValidatorSet_Hash (Validators (initialState r));
              ValidatorsHash (BlockHeader nblk)]],
          Ret false).
Proof.
  intros Hnone. unfold checkBlock.
  destruct (lastTrustedBlock r) as [ltb|] eqn:E.
  - rewrite (Hnone ltb eq_refl).
    destruct (bytes_Equal _ _); reflexivity.
  - destruct (bytes_Equal _ _); reflexivity.
Qed.

(** What [applyPeeked] does with quiet collaborators: one pop, one save
    and one apply, in this order, no call of the verifier; then the loop
    goes on with the state the executor returned, or panics when the
    executor fails. *)
Lemma applyPeeked_quiet r l nb nblk parts id env :
  quiet env ->
  exists rest,
    trace_of (applyPeeked r l nb nblk parts id env) =
      [Ev pool_PopRequest; Ev (store_SaveBlock nblk parts (commit nb));
       Ev (blockExec_ApplyBlock (state l) id nblk)] ++ rest /\
    count is_PopRequest rest = 0%nat /\
    count is_SaveBlock rest = 0%nat /\
    count is_ApplyBlock rest = 0%nat /\
    count is_VerifyAdjacent rest = 0%nat /\
    match answer env _ (blockExec_ApplyBlock (state l) id nblk) with
    | inl state' =>
      exists lastHundred',
        outcome_of (applyPeeked r l nb nblk parts id env) =
          Ret (set_lastTrustedBlock r (Some nb),
               {| state := state';
                  blocksSynced := Int.wrapu64 (blocksSynced l + 1);
                  lastHundred := lastHundred';
                  didProcessCh := didProcessCh l |},
               Continue)
    | inr err =>
      outcome_of (applyPeeked r l nb nblk parts id env) =
        Panic (PanicSprintf "failed to process committed block (%d:%X): %v"
                 [ArgInt (Height (BlockHeader nblk)); ArgBytes (Block_Hash nblk);
                  ArgError err])
    end.
Proof.
  intros Hq. unfold applyPeeked, bind, do, emit, ret, panic, trace_of, outcome_of.
  rewrite !Hq. simpl.
  destruct (answer env _ (blockExec_ApplyBlock (state l) id nblk)) as [state'|err]; simpl.
  - rewrite !Hq.
    destruct (Int.wrapu64 (blocksSynced l + 1) mod 100 =? 0); simpl;
      rewrite ?Hq; simpl; eexists; (split; [reflexivity|]);
      repeat split; eauto.
  - eexists. split; [reflexivity|]. repeat split.
Qed.

End BlockFacts.

Section TrustFacts.
Context `{TypesPkg}.

Lemma count_app p (t u : list event) : count p (t ++ u) = (count p t + count p u)%nat.
Proof. unfold count. rewrite filter_app, length_app. reflexivity. Qed.

(** The [didProcessCh] case when, after the load of the last trusted
    block, there is no trusted block to verify the peeked block
    against. *)
Lemma didProcess_no_trusted env r l nb nblk parts tl r1 :
  quiet env ->
  answer env _ pool_PeekBlock = Some nb ->
  block nb = Some nblk ->
  answer env _ (block_MakePartSet nblk BlockPartSizeBytes) = inl parts ->
  loadTrusted r env = (tl, Ret r1) ->
  (forall ltb, lastTrustedBlock r1 = Some ltb -> block ltb = None) ->
  didProcess r l env =
    if bytes_Equal (ValidatorSet_Hash (Validators (initialState r1)))
         (ValidatorsHash (BlockHeader nblk))
    then
      let run := applyPeeked r1 (set_didProcessCh l true) nb nblk parts
                   {| BlockID_Hash := Block_Hash nblk;
                      BlockID_PartSetHeader := PartSet_Header parts |} env in
      ([Ev pool_PeekBlock] ++ tl ++ [Ev (block_MakePartSet nblk BlockPartSizeBytes)] ++
       trace_of run, outcome_of run)
    else
      ([Ev pool_PeekBlock] ++ tl ++
       [Ev (block_MakePartSet nblk BlockPartSizeBytes);
        Println "initial hash new hash"
          [ValidatorSet_Hash (Validators (initialState r1));
           ValidatorsHash (BlockHeader nblk)]],
       Ret (r1, set_didProcessCh l true, Return)).
Proof.
  intros Hq Hpeek Hblk Hparts Hload Hnone.
  unfold didProcess. unfold bind at 1. unfold do at 1. rewrite Hq, Hpeek.
  unfold bind at 1. rewrite Hload, Hblk.
  unfold bind at 1. unfold do at 1. rewrite Hq, Hparts.
  unfold bind at 1. rewrite (checkBlock_no_trusted _ _ _ _ _ Hnone).
  destruct (bytes_Equal _ _).
  - cbv zeta. unfold trace_of, outcome_of.
    destruct (applyPeeked _ _ _ _ _ _ env) as [ta oa]. simpl.
    reflexivity.
  - unfold ret. simpl. rewrite ?app_nil_r, <- ?app_assoc. reflexivity.
Qed.

(** C5.  When the driver processes a peeked block with no trusted block
    and an initial state whose last block height is 0, the collaborators
    returning and the part set made: if the hash of the initial state's
    validators differs from the block's validators hash, the driver
    leaves the loop, and the block is neither popped nor saved nor
    applied; if the two hashes are equal, the block is processed as
    every accepted block is (it becomes the trusted block, its request
    is popped, it is saved, then applied), and the adjacent verifier is
    not called. *)
Theorem genesis_validators_check env r l nb nblk parts :
  quiet env ->
  lastTrustedBlock r = None ->
  LastBlockHeight (initialState r) = 0 ->
  answer env _ pool_PeekBlock = Some nb ->
  block nb = Some nblk ->
  answer env _ (block_MakePartSet nblk BlockPartSizeBytes) = inl parts ->
  let l1 := set_didProcessCh l true in
  let id := {| BlockID_Hash := Block_Hash nblk;
               BlockID_PartSetHeader := PartSet_Header parts |} in
  let run := didProcess r l env in
  (ValidatorSet_Hash (Validators (initialState r)) <> ValidatorsHash (BlockHeader nblk) ->
   outcome_of run = Ret (r, l1, Return) /\
   count is_PopRequest (trace_of run) = 0%nat /\
   count is_SaveBlock (trace_of run) = 0%nat /\
   count is_ApplyBlock (trace_of run) = 0%nat /\
   count is_VerifyAdjacent (trace_of run) = 0%nat) /\
  (ValidatorSet_Hash (Validators (initialState r)) = ValidatorsHash (BlockHeader nblk) ->
   trace_of run =
     [Ev pool_PeekBlock; Ev (block_MakePartSet nblk BlockPartSizeBytes)] ++
     trace_of (applyPeeked r l1 nb nblk parts id env) /\
   outcome_of run = outcome_of (applyPeeked r l1 nb nblk parts id env) /\
   count is_PopRequest (trace_of run) = 1%nat /\
   count is_SaveBlock (trace_of run) = 1%nat /\
   count is_ApplyBlock (trace_of run) = 1%nat /\
   count is_VerifyAdjacent (trace_of run) = 0%nat /\
   match answer env _ (blockExec_ApplyBlock (state l) id nblk) with
   | inl state' =>
     exists lastHundred',
       outcome_of run =
         Ret (set_lastTrustedBlock r (Some nb),
              {| state := state';
                 blocksSynced := Int.wrapu64 (blocksSynced l + 1);
                 lastHundred := lastHundred';
                 didProcessCh := true |},
              Continue)
   | inr err =>
     outcome_of run =
       Panic (PanicSprintf "failed to process committed block (%d:%X): %v"
                [ArgInt (Height (BlockHeader nblk)); ArgBytes (Block_Hash nblk);
                 ArgError err])
   end).
Proof.
  intros Hq Hnil Hzero Hpeek Hblk Hparts l1 id run.
  assert (loadTrusted r env = ([], Ret r)) as Hload.
  { unfold loadTrusted. rewrite Hnil, Hzero. reflexivity. }
  assert (forall ltb, lastTrustedBlock r = Some ltb -> block ltb = None) as Hnone
    by (intros ltb E; rewrite Hnil in E; discriminate).
  pose proof (didProcess_no_trusted env r l nb nblk parts [] r
                Hq Hpeek Hblk Hparts Hload Hnone) as Hrun.
  fold run in Hrun. split.
  - intros Hne. apply bytes_Equal_false in Hne. rewrite Hne in Hrun.
    rewrite Hrun. repeat split.
  - intros Heq. apply bytes_Equal_true in Heq. rewrite Heq in Hrun.
    cbv zeta in Hrun. fold l1 id in Hrun.
    destruct (applyPeeked_quiet r l1 nb nblk parts id env Hq)
      as (rest & Htr & Hpop & Hsave & Happly & Hver & Hout).
    assert (trace_of run =
              [Ev pool_PeekBlock; Ev (block_MakePartSet nblk BlockPartSizeBytes)] ++
              trace_of (applyPeeked r l1 nb nblk parts id env)) as Et
      by (rewrite Hrun; reflexivity).
    assert (outcome_of run = outcome_of (applyPeeked r l1 nb nblk parts id env)) as Eo
      by (rewrite Hrun; reflexivity).
    rewrite Eo, Et. split; [reflexivity|]. split; [reflexivity|].
    rewrite Htr, !count_app, Hpop, Hsave, Happly, Hver.
    repeat (split; [reflexivity|]).
    exact Hout.
Qed.

End TrustFacts.

(** The first block of a chain, accepted on the validators hash of the
    initial state: it is popped once and the verifier is not called. *)
Lemma genesis_validators_check_witness :
  let run := didProcess
    (Sample.reactor (Sample.state_at 0 [1] [1]) None true)
    (Sample.locals (Sample.state_at 0 [1] [1]) 0)
    (Sample.env (Some (Sample.response_of Sample.T1)) None false 0) in
  count is_PopRequest (trace_of run) = 1%nat /\
  count is_VerifyAdjacent (trace_of run) = 0%nat.
Proof.
  pose proof (genesis_validators_check
    (Sample.env (Some (Sample.response_of Sample.T1)) None false 0)
    (Sample.reactor (Sample.state_at 0 [1] [1]) None true)
    (Sample.locals (Sample.state_at 0 [1] [1]) 0)
    (Sample.response_of Sample.T1) (Sample.block_of Sample.T1)
    {| PartSet_Header := {| PSH_Total := 1; PSH_Hash := [1] |};
       PartSet_Parts := [[1]] |}
    (Sample_env_quiet _ _ _ _) eq_refl eq_refl eq_refl eq_refl eq_refl) as [_ Hm].
  destruct (Hm eq_refl) as (_ & _ & Hp & _ & _ & Hv & _).
  exact (conj Hp Hv).
Defined.

Section LoadFacts.
Context `{TypesPkg}.

(** The panics of the [didProcessCh] case: those of a collaborator, the
    dereference of a nil block, ["Need last block"], and the failure of
    the executor. *)
Lemma didProcess_panics env r l v :
  outcome_of (didProcess r l env) = Panic v ->
  (exists s, v = CollaboratorPanic s) \/
  (exists s, v = RuntimeError s) \/
  v = PanicString "Need last block" \/
  (exists f a, v = PanicSprintf f a).
Proof.
  unfold didProcess, loadTrusted, checkBlock, applyPeeked,
    bind, do, emit, ret, panic, outcome_of.
  intros Hp. repeat (case_match; simpl in *; simplify_eq); eauto 6.
Qed.

End LoadFacts.

Section UnreachablePanic.
Context `{TypesPkg}.

(** C10.  The [didProcessCh] case never panics with ["Failed to load
    last trusted block"]: the pointer tested is the address of a fresh
    [BlockResponse].  When there is no trusted block, the last block
    height of the initial state is not 0 and the store returns no block
    for it, the trusted block becomes a response with a nil block, and
    the peeked block is checked against the validators hash of the
    initial state as a first block is: on a mismatch the driver leaves
    the loop, on a match the block is processed. *)
Theorem load_panic_unreachable :
  (forall env r l,
     outcome_of (didProcess r l env) <>
       Panic (PanicString "Failed to load last trusted block")) /\
  (forall env r l nb nblk parts,
     quiet env ->
     lastTrustedBlock r = None ->
     LastBlockHeight (initialState r) <> 0 ->
     answer env _ (store_LoadBlock (LastBlockHeight (initialState r))) = None ->
     answer env _ pool_PeekBlock = Some nb ->
     block nb = Some nblk ->
     answer env _ (block_MakePartSet nblk BlockPartSizeBytes) = inl parts ->
     let h := LastBlockHeight (initialState r) in
     let r1 := set_lastTrustedBlock r
       (Some {| block := None; commit := answer env _ (store_LoadBlockCommit h) |}) in
     let loaded := [Ev (store_LoadBlock h); Ev (store_LoadBlockCommit h)] in
     didProcess r l env =
       if bytes_Equal (ValidatorSet_Hash (Validators (initialState r)))
            (ValidatorsHash (BlockHeader nblk))
       then
         let run := applyPeeked r1 (set_didProcessCh l true) nb nblk parts
                      {| BlockID_Hash := Block_Hash nblk;
                         BlockID_PartSetHeader := PartSet_Header parts |} env in
         ([Ev pool_PeekBlock] ++ loaded ++
          [Ev (block_MakePartSet nblk BlockPartSizeBytes)] ++ trace_of run,
          outcome_of run)
       else
         ([Ev pool_PeekBlock] ++ loaded ++
          [Ev (block_MakePartSet nblk BlockPartSizeBytes);
           Println "initial hash new hash"
             [ValidatorSet_Hash (Validators (initialState r));
              ValidatorsHash (BlockHeader nblk)]],
          Ret (r1, set_didProcessCh l true, Return))).
Proof.
  split.
  - intros env r l Hp. apply didProcess_panics in Hp.
    destruct Hp as [[s Hs]|[[s Hs]|[Hs|(f & a & Hs)]]]; discriminate.
  - intros env r l nb nblk parts Hq Hnil Hh Hstore Hpeek Hblk Hparts h r1 loaded.
    apply (didProcess_no_trusted env r l nb nblk parts loaded r1
             Hq Hpeek Hblk Hparts).
    + unfold loadTrusted. rewrite Hnil.
      apply Z.eqb_neq in Hh. rewrite Hh. simpl.
      unfold bind, do, ret. rewrite !Hq. subst h r1 loaded.
      rewrite Hstore. reflexivity.
    + intros ltb [= <-]. reflexivity.
Qed.

End UnreachablePanic.

(** A restart at height 3 with an empty store: the load returns no
    block, the driver does not panic, and the peeked block, whose
    validators hash is not that of the initial state, makes the driver
    leave the loop. *)
Lemma load_panic_unreachable_witness :
  outcome_of (didProcess
    (Sample.reactor (Sample.state_at 3 [1] [1]) None true)
    (Sample.locals (Sample.state_at 3 [1] [1]) 0)
    (Sample.env (Some (Sample.response_of Sample.U2)) None false 0)) =
  Ret (set_lastTrustedBlock (Sample.reactor (Sample.state_at 3 [1] [1]) None true)
         (Some {| block := None; commit := None |}),
       set_didProcessCh (Sample.locals (Sample.state_at 3 [1] [1]) 0) true,
       Return).
Proof.
  pose proof (proj2 load_panic_unreachable
    (Sample.env (Some (Sample.response_of Sample.U2)) None false 0)
    (Sample.reactor (Sample.state_at 3 [1] [1]) None true)
    (Sample.locals (Sample.state_at 3 [1] [1]) 0)
    (Sample.response_of Sample.U2) (Sample.block_of Sample.U2)
    {| PartSet_Header := {| PSH_Total := 1; PSH_Hash := [2] |};
       PartSet_Parts := [[2]] |}
    (Sample_env_quiet _ _ _ _) eq_refl ltac:(discriminate) eq_refl eq_refl eq_refl
    eq_refl) as Hrun.
  rewrite Hrun. reflexivity.
Defined.

Section RejectedBlock.
Context `{TypesPkg}.

(** When the verifier rejects the peeked block and the peer error is
    sent, control reaches the statements after the check: the rejected
    block is processed as an accepted one is. *)
Lemma didProcess_verify_failure env r l nb nblk parts ltb tblk err :
  quiet env ->
  lastTrustedBlock r = Some ltb ->
  block ltb = Some tblk ->
  answer env _ pool_PeekBlock = Some nb ->
  block nb = Some nblk ->
  answer env _ (block_MakePartSet nblk BlockPartSizeBytes) = inl parts ->
  Height (BlockHeader nblk) = Int.wrap64 (Height (BlockHeader tblk) + 1) ->
  let T := {| SH_Header := BlockHeader tblk; SH_Commit := commit ltb |} in
  let U := {| SH_Header := BlockHeader nblk; SH_Commit := commit nb |} in
  VerifyAdjacent T U (NextValidators (state l)) = Some err ->
  let perr :=
    {| PE_NodeID := answer env _ (pool_RedoRequest (Height (BlockHeader nblk)));
       PE_Err := fmt_Errorf_w "invalid last commit: %w" [] err |} in
  answer env _ (ch_SendError perr) = None ->
  let run := applyPeeked r (set_didProcessCh l true) nb nblk parts
               {| BlockID_Hash := Block_Hash nblk;
                  BlockID_PartSetHeader := PartSet_Header parts |} env in
  didProcess r l env =
    ([Ev pool_PeekBlock; Ev (block_MakePartSet nblk BlockPartSizeBytes);
      EvVerifyAdjacent T U (NextValidators (state l));
      Log "error" "invalid last commit";
      Ev (pool_RedoRequest (Height (BlockHeader nblk)));
      Ev (ch_SendError perr)] ++ trace_of run,
     outcome_of run).
Proof.
  intros Hq Hltb Htblk Hpeek Hblk Hparts Hadj T U Hver perr Hsend run.
  unfold didProcess. unfold bind at 1. unfold do at 1. rewrite Hq, Hpeek.
  unfold bind at 1. unfold loadTrusted. rewrite Hltb. simpl.
  unfold ret at 1. rewrite Hblk.
  unfold bind at 1. unfold do at 1. rewrite Hq, Hparts.
  unfold bind at 1. unfold checkBlock. rewrite Hltb, Htblk, Hadj, Z.eqb_refl. simpl.
  unfold bind at 1. unfold emit at 1.
  fold T U. rewrite Hver.
  unfold bind at 1. unfold emit at 1.
  unfold bind at 1. unfold do at 1. rewrite Hq.
  unfold bind at 1. unfold do at 1. rewrite Hq.
  rewrite <- Hadj. fold perr. rewrite Hsend. unfold ret at 1.
  fold run. destruct run as [ta oa]. reflexivity.
Qed.

End RejectedBlock.

(** C1 fails on the code.  The trusted block is at height 1 with next
    validators [[2]]; the peeked block at height 2 has validators hash
    [[7]], so the verifier rejects it.  The driver calls
    [RedoRequest(2)] and reports a peer error for the peer the pool
    names, as the claim says; and then it replaces the trusted block by
    the rejected block, pops the request, saves the block and applies
    it, and goes round the loop. *)
Theorem rejected_block_is_applied :
  let r := Sample.reactor (Sample.state_at 1 [1] [2])
             (Some (Sample.response_of Sample.T1)) true in
  let l := Sample.locals (Sample.state_at 1 [1] [2]) 1 in
  let env := Sample.env (Some (Sample.response_of Sample.U2_other_vals)) None false 0 in
  let run := didProcess r l env in
  (exists err, VerifyAdjacent Sample.T1 Sample.U2_other_vals Sample.V2 = Some err /\
     peer_errors (trace_of run) =
       [{| PE_NodeID := "A";
           PE_Err := fmt_Errorf_w "invalid last commit: %w" [] err |}]) /\
  redone (trace_of run) = [2] /\
  count is_PopRequest (trace_of run) = 1%nat /\
  count is_SaveBlock (trace_of run) = 1%nat /\
  count is_ApplyBlock (trace_of run) = 1%nat /\
  outcome_of run =
    Ret (set_lastTrustedBlock r (Some (Sample.response_of Sample.U2_other_vals)),
         {| state := Sample.state_at 1 [1] [2]; blocksSynced := 2;
            lastHundred := 0; didProcessCh := true |},
         Continue).
Proof.
  split; [eexists; split; reflexivity|].
  repeat split; reflexivity.
Qed.

(** ** The wire messages *)

Module WireFacts.
Import Wire.

(** *** Bits *)

Lemma lor_disjoint a c s :
  0 <= a < 2 ^ s -> 0 <= c -> 0 <= s -> Z.lor a (Z.shiftl c s) = a + c * 2 ^ s.
Proof.
  intros Ha Hc Hs.
  assert (Z.land a (Z.shiftl c s) = 0) as Hdis.
  { apply Z.bits_inj'. intros n Hn. rewrite Z.land_spec, Z.bits_0.
    destruct (Z.lt_ge_cases n s) as [Hlt|Hge].
    - rewrite (Z.shiftl_spec_low c s n Hlt). apply andb_false_r.
    - assert (Z.testbit a n = false) as ->; [|reflexivity].
      destruct (Z.eq_dec a 0) as [->|Hne]; [apply Z.bits_0|].
      apply Z.bits_above_log2; [lia|].
      apply Z.log2_lt_pow2; [lia|].
      apply Z.lt_le_trans with (2 ^ s); [lia|].
      apply Z.pow_le_mono_r; lia. }
  rewrite <- Z.lxor_lor by exact Hdis.
  rewrite <- Z.add_nocarry_lxor by exact Hdis.
  rewrite Z.shiftl_mul_pow2 by exact Hs. reflexivity.
Qed.

Lemma land_127 v : 0 <= v -> Z.land v 0x7f = v mod 128.
Proof. intros Hv. change 0x7f with (Z.ones 7). rewrite Z.land_ones by lia. reflexivity. Qed.

Lemma continuation_byte v :
  0 <= v -> Z.lor (Z.land v 0x7f) 0x80 = v mod 128 + 128.
Proof.
  intros Hv. rewrite land_127 by exact Hv.
  pose proof (Z.mod_pos_bound v 128 ltac:(lia)) as Hm.
  transitivity (Z.lor (v mod 128) (Z.shiftl 1 7)); [reflexivity|].
  rewrite lor_disjoint; lia.
Qed.

Lemma uint8_small z : 0 <= z < 256 -> uint8 z = z.
Proof. intros Hz. unfold uint8. apply Z.mod_small. exact Hz. Qed.

(** *** The size of a varint *)

Lemma sovTypes_log2 v : 1 <= v -> sovTypes v = (Z.log2 v + 7) / 7.
Proof.
  intros Hv. unfold sovTypes, Len64.
  assert (Z.log2 (Z.lor v 1) = Z.log2 v) as Hl.
  { rewrite Z.log2_lor by lia. change (Z.log2 1) with 0.
    pose proof (Z.log2_nonneg v). lia. }
  assert (Z.lor v 1 <> 0) as Hne.
  { intros E. apply Z.lor_eq_0_iff in E. lia. }
  apply Z.eqb_neq in Hne. rewrite Hne, Hl. f_equal. lia.
Qed.

Lemma sovTypes_small v : 0 <= v < 128 -> sovTypes v = 1.
Proof.
  intros Hv. destruct (Z.eq_dec v 0) as [->|Hne]; [reflexivity|].
  rewrite sovTypes_log2 by lia.
  assert (0 <= Z.log2 v < 7).
  { split; [apply Z.log2_nonneg|]. apply Z.log2_lt_pow2; lia. }
  symmetry. apply Z.div_unique with (r := Z.log2 v); lia.
Qed.

Lemma sovTypes_step v : 128 <= v -> sovTypes v = 1 + sovTypes (v / 128).
Proof.
  intros Hv.
  assert (1 <= v / 128) as Hq by (apply Z.div_le_lower_bound; lia).
  rewrite !sovTypes_log2 by lia.
  assert (Z.log2 (v / 128) = Z.log2 v - 7) as ->.
  { change 128 with (2 ^ 7). rewrite <- Z.shiftr_div_pow2 by lia.
    rewrite Z.log2_shiftr by lia.
    assert (7 <= Z.log2 v) by (apply Z.log2_le_pow2; lia). lia. }
  replace (Z.log2 v + 7) with (Z.log2 v - 7 + 7 + 1 * 7) by lia.
  rewrite Z.div_add by lia. lia.
Qed.

Lemma sovTypes_pos v : 0 <= v -> 1 <= sovTypes v.
Proof.
  intros Hv. destruct (Z.lt_ge_cases v 128).
  - rewrite sovTypes_small; lia.
  - rewrite sovTypes_log2 by lia. pose proof (Z.log2_nonneg v).
    apply Z.div_le_lower_bound; lia.
Qed.

Lemma len_app (a b : bytes) : len (a ++ b) = len a + len b.
Proof. unfold len. rewrite length_app. lia. Qed.

Lemma len_nonneg (a : bytes) : 0 <= len a.
Proof. unfold len. lia. Qed.

Lemma len_varint_groups k v :
  0 <= v < 2 ^ (7 * Z.of_nat k) -> (1 <= k)%nat ->
  len (varint_groups k v) = sovTypes v.
Proof.
  revert v. induction k as [|k IH]; intros v Hv Hk; [lia|].
  simpl. destruct (v >=? 128) eqn:E.
  - apply Z.geb_le in E. rewrite sovTypes_step by lia.
    change (len ((v mod 128 + 128) :: varint_groups k (v / 128)))
      with (Z.of_nat (S (length (varint_groups k (v / 128))))).
    rewrite Nat2Z.inj_succ. fold (len (varint_groups k (v / 128))).
    destruct k as [|k'].
    + simpl in Hv. lia.
    + rewrite IH; [lia| |lia].
      split; [apply Z.div_pos; lia|].
      apply Z.div_lt_upper_bound; [lia|].
      replace (7 * Z.of_nat (S (S k'))) with (7 + 7 * Z.of_nat (S k')) in Hv by lia.
      rewrite Z.pow_add_r in Hv by lia. lia.
  - rewrite Z.geb_leb in E. apply Z.leb_gt in E.
    rewrite sovTypes_small by lia. reflexivity.
Qed.

Lemma len_varint v : 0 <= v < 2 ^ 64 -> len (varint v) = sovTypes v.
Proof.
  intros Hv. apply len_varint_groups; [|lia].
  split; [lia|]. apply Z.lt_le_trans with (2 ^ 64); [lia|].
  apply Z.pow_le_mono_r; lia.
Qed.

(** *** Writing into a buffer *)

Lemma to_nat_len (a : bytes) : Z.to_nat (len a) = length a.
Proof. unfold len. apply Nat2Z.id. Qed.

Lemma store_middle pre m0 rest x :
  store (pre ++ m0 :: rest) (len pre) x = Done (pre ++ x :: rest).
Proof.
  unfold store. rewrite len_app.
  assert (0 <= len pre) by apply len_nonneg.
  assert (0 < len (m0 :: rest)) by (unfold len; simpl; lia).
  destruct (0 <=? len pre) eqn:E1; [|apply Z.leb_gt in E1; lia].
  destruct (len pre <? len pre + len (m0 :: rest)) eqn:E2; [|apply Z.ltb_ge in E2; lia].
  cbn [andb]. rewrite to_nat_len.
  rewrite insert_app_r_alt by lia. rewrite Nat.sub_diag. reflexivity.
Qed.

Lemma on_prefix_app {A} (a b : bytes) (f : bytes -> res (bytes * A)) :
  on_prefix (a ++ b) (len a) f =
    (w <-- f a ;; let '(d', x) := w in Done (d' ++ b, x)).
Proof.
  unfold on_prefix. rewrite len_app.
  pose proof (len_nonneg a). pose proof (len_nonneg b).
  destruct (0 <=? len a) eqn:E1; [|apply Z.leb_gt in E1; lia].
  destruct (len a <=? len a + len b) eqn:E2; [|apply Z.leb_gt in E2; lia].
  cbn [andb]. rewrite to_nat_len, take_app_length, drop_app_length. reflexivity.
Qed.

Lemma on_suffix_app {A} (a b : bytes) (f : bytes -> res (bytes * A)) :
  on_suffix (a ++ b) (len a) f =
    (w <-- f b ;; let '(d', x) := w in Done (a ++ d', x)).
Proof.
  unfold on_suffix. rewrite len_app.
  pose proof (len_nonneg a). pose proof (len_nonneg b).
  destruct (0 <=? len a) eqn:E1; [|apply Z.leb_gt in E1; lia].
  destruct (len a <=? len a + len b) eqn:E2; [|apply Z.leb_gt in E2; lia].
  cbn [andb]. rewrite to_nat_len, take_app_length, drop_app_length. reflexivity.
Qed.

Lemma encodeVarint_loop_spec k : forall v pre mid post,
  0 <= v < 2 ^ (7 * Z.of_nat k) -> (1 <= k)%nat ->
  length mid = length (varint_groups k v) ->
  encodeVarint_loop k (pre ++ mid ++ post) (len pre) v =
    Done (pre ++ varint_groups k v ++ post).
Proof.
  induction k as [|k IH]; intros v pre mid post Hv Hk Hmid; [lia|].
  simpl in *. destruct (v >=? 128) eqn:E.
  - rewrite Z.geb_leb in E. apply Z.leb_le in E.
    destruct mid as [|m0 mid']; [discriminate|]. simpl in Hmid.
    change (pre ++ (m0 :: mid') ++ post) with (pre ++ m0 :: (mid' ++ post)).
    rewrite store_middle. simpl.
    rewrite continuation_byte by lia.
    pose proof (Z.mod_pos_bound v 128 ltac:(lia)) as Hm.
    rewrite uint8_small by lia.
    rewrite Z.shiftr_div_pow2 by lia. change (2 ^ 7) with 128.
    destruct k as [|k'].
    { simpl in Hv. lia. }
    replace (len pre + 1) with (len (pre ++ [v mod 128 + 128]))
      by (rewrite len_app; reflexivity).
    replace (pre ++ (v mod 128 + 128) :: mid' ++ post)
      with ((pre ++ [v mod 128 + 128]) ++ mid' ++ post)
      by (rewrite <- app_assoc; reflexivity).
    rewrite IH; [rewrite <- app_assoc; reflexivity| |lia|lia].
    split; [apply Z.div_pos; lia|].
    apply Z.div_lt_upper_bound; [lia|].
    replace (7 * Z.of_nat (S (S k'))) with (7 + 7 * Z.of_nat (S k')) in Hv by lia.
    rewrite Z.pow_add_r in Hv by lia. lia.
  - rewrite Z.geb_leb in E. apply Z.leb_gt in E.
    destruct mid as [|m0 [|m1 mid']]; try discriminate.
    change (pre ++ [m0] ++ post) with (pre ++ m0 :: post).
    rewrite store_middle. rewrite uint8_small by lia. reflexivity.
Qed.

Lemma varint_bound v : 0 <= v < 2 ^ 64 -> 0 <= v < 2 ^ (7 * Z.of_nat 10).
Proof.
  intros Hv. split; [lia|]. apply Z.lt_le_trans with (2 ^ 64); [lia|].
  apply Z.pow_le_mono_r; lia.
Qed.

Lemma encodeVarintTypes_spec v pre mid post :
  0 <= v < 2 ^ 64 ->
  length mid = length (varint v) ->
  encodeVarintTypes (pre ++ mid ++ post) (len (pre ++ mid)) v =
    Done (pre ++ varint v ++ post, len pre).
Proof.
  intros Hv Hmid. unfold encodeVarintTypes.
  assert (len (pre ++ mid) - sovTypes v = len pre) as ->.
  { rewrite len_app, <- len_varint by exact Hv. unfold len. lia. }
  unfold varint in *.
  rewrite encodeVarint_loop_spec; [reflexivity|apply varint_bound; exact Hv|lia|exact Hmid].
Qed.

Lemma inner_writes c x : writes (inner_MarshalToSizedBuffer c x) (encoding c x).
Proof.
  intros pre slot Hslot. unfold inner_MarshalToSizedBuffer, inner_Size.
  rewrite len_app.
  assert (len slot = len (encoding c x)) as Hl by (unfold len; lia).
  pose proof (len_nonneg pre).
  destruct (len (encoding c x) <=? len pre + len slot) eqn:E;
    [|apply Z.leb_gt in E; lia].
  rewrite Hl. replace (len pre + len (encoding c x) - len (encoding c x)) with (len pre) by lia.
  rewrite to_nat_len, take_app_length. reflexivity.
Qed.

Lemma len_cons (x : Z) (a : bytes) : len (x :: a) = 1 + len a.
Proof. unfold len. simpl. lia. Qed.

Lemma wrapu64_small z : 0 <= z < 2 ^ 64 -> Int.wrapu64 z = z.
Proof. intros Hz. unfold Int.wrapu64. apply Z.mod_small. exact Hz. Qed.

Lemma field_bytes_length tag payload :
  length (field_bytes tag payload) =
    S (length (varint (len payload)) + length payload).
Proof. unfold field_bytes. simpl. rewrite length_app. reflexivity. Qed.

(** The generated block for a field writes the field before what is
    already in the buffer. *)
Lemma put_field_spec tag marshal payload pre slot post :
  writes marshal payload ->
  len payload < 2 ^ 64 ->
  length slot = length (field_bytes tag payload) ->
  put_field tag marshal (pre ++ slot ++ post) (len (pre ++ slot)) =
    Done (pre ++ field_bytes tag payload ++ post, len pre).
Proof.
  intros Hw Hb Hslot. rewrite field_bytes_length in Hslot.
  pose proof (len_nonneg payload) as Hp0.
  destruct slot as [|s_tag slot']; [discriminate|].
  simpl in Hslot. injection Hslot as Hslot.
  set (n := length (varint (len payload))) in *.
  assert (slot' = take n slot' ++ drop n slot') as Hsplit
    by (symmetry; apply take_drop).
  set (s_len := take n slot') in *. set (s_pay := drop n slot') in *.
  assert (length s_len = n) as Hlen1
    by (unfold s_len; rewrite length_take; lia).
  assert (length s_pay = length payload) as Hlen2
    by (unfold s_pay; rewrite length_drop; lia).
  unfold put_field.
  rewrite app_assoc, on_prefix_app.
  replace (pre ++ s_tag :: slot') with ((pre ++ s_tag :: s_len) ++ s_pay)
    by (rewrite Hsplit, <- app_assoc; reflexivity).
  rewrite (Hw _ _ Hlen2). simpl.
  rewrite wrapu64_small by lia.
  replace (len ((pre ++ s_tag :: s_len) ++ s_pay) - len payload)
    with (len ((pre ++ [s_tag]) ++ s_len)).
  2:{ rewrite !len_app. unfold len. simpl. lia. }
  replace (((pre ++ s_tag :: s_len) ++ payload) ++ post)
    with ((pre ++ [s_tag]) ++ s_len ++ (payload ++ post)).
  2:{ rewrite <- !app_assoc. reflexivity. }
  rewrite encodeVarintTypes_spec; [|lia|exact Hlen1]. simpl.
  replace (len (pre ++ [s_tag]) - 1) with (len pre)
    by (rewrite len_app; unfold len; simpl; lia).
  rewrite <- app_assoc. simpl.
  rewrite store_middle. simpl. unfold field_bytes.
  rewrite <- app_assoc. reflexivity.
Qed.

Lemma field_size_len tag payload :
  len payload < 2 ^ 64 -> field_size (len payload) = len (field_bytes tag payload).
Proof.
  intros Hb. pose proof (len_nonneg payload).
  unfold field_size. rewrite wrapu64_small by lia.
  rewrite <- len_varint by lia.
  unfold field_bytes. rewrite len_cons, len_app. lia.
Qed.

Section MarshalFacts.
Context `{Imported}.

Lemma field_size_gt l : 0 <= l -> l < field_size l.
Proof.
  intros Hl. unfold field_size.
  assert (1 <= sovTypes (Int.wrapu64 l)).
  { apply sovTypes_pos. unfold Int.wrapu64. apply Z.mod_pos_bound. reflexivity. }
  lia.
Qed.

Lemma inner_Size_nonneg c x : 0 <= inner_Size c x.
Proof. apply len_nonneg. Qed.

Lemma BlockResponse_Size_len m :
  BlockResponse_Size m < 2 ^ 64 -> BlockResponse_Size m = len (BlockResponse_bytes m).
Proof.
  unfold BlockResponse_Size, BlockResponse_bytes.
  destruct (BR_Block m) as [b|], (BR_ExtCommit m) as [c|]; cbv zeta; intros Hb;
    try pose proof (field_size_gt _ (inner_Size_nonneg v3_Block b));
    try pose proof (field_size_gt _ (inner_Size_nonneg v3_ExtendedCommit c));
    try pose proof (inner_Size_nonneg v3_Block b);
    try pose proof (inner_Size_nonneg v3_ExtendedCommit c);
    unfold inner_Size in *; rewrite ?len_app.
  - rewrite <- (field_size_len 0xa), <- (field_size_len 0x12) by lia. lia.
  - rewrite <- (field_size_len 0xa) by lia. unfold len at 3. simpl. lia.
  - rewrite <- (field_size_len 0x12) by lia. unfold len at 2. simpl. lia.
  - reflexivity.
Qed.

Lemma BlockResponse_writes m :
  BlockResponse_Size m < 2 ^ 64 ->
  writes (BlockResponse_MarshalToSizedBuffer m) (BlockResponse_bytes m).
Proof.
  intros Hb pre slot Hslot.
  unfold BlockResponse_MarshalToSizedBuffer.
  revert Hb Hslot. unfold BlockResponse_Size, BlockResponse_bytes.
  destruct (BR_Block m) as [b|], (BR_ExtCommit m) as [c|]; cbv beta iota zeta;
    intros Hb Hslot;
    try pose proof (field_size_gt _ (inner_Size_nonneg v3_Block b));
    try pose proof (field_size_gt _ (inner_Size_nonneg v3_ExtendedCommit c));
    try pose proof (inner_Size_nonneg v3_Block b);
    try pose proof (inner_Size_nonneg v3_ExtendedCommit c);
    unfold inner_Size in *.
  - rewrite length_app in Hslot.
    set (fb := field_bytes 10 (encoding v3_Block b)) in *.
    set (fc := field_bytes 18 (encoding v3_ExtendedCommit c)) in *.
    assert (slot = take (length fb) slot ++ drop (length fb) slot) as Hsplit
      by (symmetry; apply take_drop).
    set (sb := take (length fb) slot) in *. set (sc := drop (length fb) slot) in *.
    assert (length sb = length fb) by (unfold sb; rewrite length_take; lia).
    assert (length sc = length fc) by (unfold sc; rewrite length_drop; lia).
    rewrite Hsplit.
    replace (pre ++ sb ++ sc) with ((pre ++ sb) ++ sc ++ []) at 1
      by (rewrite app_nil_r, app_assoc; reflexivity).
    replace (len (pre ++ sb ++ sc)) with (len ((pre ++ sb) ++ sc)) at 1
      by (rewrite app_assoc; reflexivity).
    rewrite (put_field_spec 18 _ (encoding v3_ExtendedCommit c));
      [|apply inner_writes|lia|assumption].
    cbn [res_bind]. rewrite app_nil_r, <- app_assoc.
    rewrite (put_field_spec 10 _ (encoding v3_Block b));
      [|apply inner_writes|lia|assumption].
    cbn [res_bind]. f_equal. f_equal. rewrite !len_app. unfold len. lia.
  - rewrite app_nil_r in *. cbn [res_bind].
    replace (pre ++ slot) with (pre ++ slot ++ []) at 1 by (rewrite app_nil_r; reflexivity).
    rewrite (put_field_spec 10 _ (encoding v3_Block b));
      [|apply inner_writes|lia|assumption].
    cbn [res_bind]. rewrite app_nil_r. f_equal. f_equal. rewrite len_app. unfold len. lia.
  - change ([] ++ field_bytes 18 (encoding v3_ExtendedCommit c))
      with (field_bytes 18 (encoding v3_ExtendedCommit c)) in *.
    replace (pre ++ slot) with (pre ++ slot ++ []) at 1 by (rewrite app_nil_r; reflexivity).
    rewrite (put_field_spec 18 _ (encoding v3_ExtendedCommit c));
      [|apply inner_writes|lia|assumption].
    cbn [res_bind]. rewrite app_nil_r. f_equal. f_equal. rewrite len_app. unfold len. lia.
  - destruct slot; [|discriminate]. cbn [res_bind]. rewrite !app_nil_r.
    f_equal. f_equal. unfold len. simpl. lia.
Qed.

Lemma field_size_nonneg l : 0 <= l -> 0 <= field_size l.
Proof. intros Hl. pose proof (field_size_gt l Hl). lia. Qed.

Lemma BlockResponse_Size_nonneg m : 0 <= BlockResponse_Size m.
Proof.
  unfold BlockResponse_Size.
  destruct (BR_Block m) as [b|], (BR_ExtCommit m) as [c|]; cbv beta iota zeta;
    try pose proof (field_size_nonneg _ (inner_Size_nonneg v3_Block b));
    try pose proof (field_size_nonneg _ (inner_Size_nonneg v3_ExtendedCommit c));
    lia.
Qed.

(** A field written as the only content of a slice. *)
Lemma put_field_alone tag marshal payload pre slot :
  writes marshal payload ->
  len payload < 2 ^ 64 ->
  length slot = length (field_bytes tag payload) ->
  (w <-- put_field tag marshal (pre ++ slot) (len (pre ++ slot)) ;;
   let '(d, i) := w in Done (d, len (pre ++ slot) - i)) =
    Done (pre ++ field_bytes tag payload, len (field_bytes tag payload)).
Proof.
  intros Hw Hb Hslot.
  replace (pre ++ slot) with (pre ++ slot ++ []) at 1 by (rewrite app_nil_r; reflexivity).
  rewrite (put_field_spec tag marshal payload); [|assumption..].
  cbn [res_bind]. rewrite app_nil_r. f_equal. f_equal.
  rewrite len_app. unfold len. lia.
Qed.

Lemma Sum_Size_len s : Sum_Size s < 2 ^ 64 -> Sum_Size s = len (Sum_bytes s).
Proof.
  destruct s as [[x|]|[x|]|[x|]|[x|]|[x|]]; cbn [Sum_Size Sum_bytes]; intros Hb;
    try reflexivity.
  - pose proof (field_size_gt _ (inner_Size_nonneg v1_BlockRequest x)).
    unfold inner_Size in *. apply field_size_len. lia.
  - pose proof (field_size_gt _ (inner_Size_nonneg v1_NoBlockResponse x)).
    unfold inner_Size in *. apply field_size_len. lia.
  - pose proof (field_size_gt _ (BlockResponse_Size_nonneg x)).
    assert (BlockResponse_Size x = len (BlockResponse_bytes x)) as E
      by (apply BlockResponse_Size_len; lia).
    rewrite E in *. apply field_size_len. lia.
  - pose proof (field_size_gt _ (inner_Size_nonneg v1_StatusRequest x)).
    unfold inner_Size in *. apply field_size_len. lia.
  - pose proof (field_size_gt _ (inner_Size_nonneg v1_StatusResponse x)).
    unfold inner_Size in *. apply field_size_len. lia.
Qed.

Lemma Sum_writes s :
  Sum_Size s < 2 ^ 64 -> writes (Sum_MarshalToSizedBuffer s) (Sum_bytes s).
Proof.
  intros Hb pre slot Hslot. unfold Sum_MarshalToSizedBuffer.
  destruct s as [[x|]|[x|]|[x|]|[x|]|[x|]]; cbn [Sum_Size Sum_bytes] in *;
    try (destruct slot; [|discriminate]; cbn [res_bind]; rewrite !app_nil_r;
         f_equal; f_equal; unfold len; simpl; lia).
  - pose proof (field_size_gt _ (inner_Size_nonneg v1_BlockRequest x)).
    unfold inner_Size in *.
    apply put_field_alone; [apply inner_writes|lia|assumption].
  - pose proof (field_size_gt _ (inner_Size_nonneg v1_NoBlockResponse x)).
    unfold inner_Size in *.
    apply put_field_alone; [apply inner_writes|lia|assumption].
  - pose proof (field_size_gt _ (BlockResponse_Size_nonneg x)).
    assert (BlockResponse_Size x = len (BlockResponse_bytes x)) as E
      by (apply BlockResponse_Size_len; lia).
    apply put_field_alone; [apply BlockResponse_writes; lia|lia|assumption].
  - pose proof (field_size_gt _ (inner_Size_nonneg v1_StatusRequest x)).
    unfold inner_Size in *.
    apply put_field_alone; [apply inner_writes|lia|assumption].
  - pose proof (field_size_gt _ (inner_Size_nonneg v1_StatusResponse x)).
    unfold inner_Size in *.
    apply put_field_alone; [apply inner_writes|lia|assumption].
Qed.

Lemma Sum_Size_nonneg s : 0 <= Sum_Size s.
Proof.
  destruct s as [[x|]|[x|]|[x|]|[x|]|[x|]]; cbn [Sum_Size]; try lia;
    apply field_size_nonneg;
    first [apply inner_Size_nonneg | apply BlockResponse_Size_nonneg].
Qed.

(** [Marshal] returns the wire format of the message, and its length is
    [Size]. *)
Lemma Message_Marshal_spec m :
  Message_Size m < 2 ^ 64 ->
  Message_Marshal m = Done (Message_bytes m) /\
  len (Message_bytes m) = Message_Size m.
Proof.
  unfold Message_Marshal, Message_MarshalToSizedBuffer, Message_Size, Message_bytes.
  destruct (Sum m) as [s|]; intros Hb.
  - pose proof (Sum_Size_nonneg s) as H0.
    pose proof (Sum_Size_len s Hb) as Hlen.
    split; [|symmetry; exact Hlen].
    unfold make. destruct (Sum_Size s <? 0) eqn:E; [apply Z.ltb_lt in E; lia|].
    cbn [res_bind].
    set (d0 := replicate (Z.to_nat (Sum_Size s)) 0).
    assert (length d0 = length (Sum_bytes s)) as Hd0.
    { unfold d0. rewrite length_replicate, Hlen. apply to_nat_len. }
    assert (len d0 = Sum_Size s) as Hl0 by (rewrite Hlen; unfold len; lia).
    rewrite <- Hl0 at 1.
    replace d0 with (d0 ++ []) at 1 by apply app_nil_r.
    rewrite on_prefix_app.
    rewrite Hl0. replace (Sum_Size s - Sum_Size s) with (len (@nil Z)) by (unfold len; simpl; lia).
    replace d0 with ([] ++ d0) at 1 by reflexivity.
    rewrite on_suffix_app.
    unfold Sum_MarshalTo. rewrite <- Hl0 at 1.
    replace d0 with (d0 ++ []) at 1 by apply app_nil_r.
    rewrite on_prefix_app.
    replace d0 with ([] ++ d0) at 1 by reflexivity.
    rewrite (Sum_writes s Hb [] d0 Hd0).
    cbn [res_bind app]. rewrite !app_nil_r.
    replace (Sum_Size s - len (@nil Z)) with (len (Sum_bytes s))
      by (rewrite Hlen; unfold len; simpl; lia).
    pose proof (len_nonneg (Sum_bytes s)).
    destruct (0 <=? len (Sum_bytes s)) eqn:E1; [|apply Z.leb_gt in E1; lia].
    rewrite Z.leb_refl. cbn [andb].
    rewrite to_nat_len, firstn_all. reflexivity.
  - split; reflexivity.
Qed.

End MarshalFacts.

(** *** Reading from a buffer *)

Lemma index_middle pre (x : Z) rest : index (pre ++ x :: rest) (len pre) = x.
Proof.
  unfold index. rewrite to_nat_len.
  rewrite lookup_app_r by lia. rewrite Nat.sub_diag. reflexivity.
Qed.

Lemma shift_below_64 v shift :
  0 <= shift -> shift = 0 \/ 1 <= v -> v * 2 ^ shift < 2 ^ 63 -> shift < 64.
Proof.
  intros Hs [->|Hv] Hb; [lia|].
  assert (2 ^ shift < 2 ^ 63) as Hp.
  { apply Z.le_lt_trans with (v * 2 ^ shift); [|exact Hb].
    assert (0 < 2 ^ shift) by (apply Z.pow_pos_nonneg; lia). nia. }
  apply Z.pow_lt_mono_r_iff in Hp; lia.
Qed.

Lemma readVarint_loop_spec wrap :
  (forall z, 0 <= z < 2 ^ 63 -> wrap z = z) ->
  forall k fuel v shift acc pre post,
    (k <= fuel)%nat -> (1 <= k)%nat ->
    0 <= v < 2 ^ (7 * Z.of_nat k) ->
    0 <= shift -> 0 <= acc < 2 ^ shift ->
    acc + v * 2 ^ shift < 2 ^ 63 ->
    shift = 0 \/ 1 <= v ->
    readVarint_loop fuel wrap (pre ++ varint_groups k v ++ post) shift acc (len pre) =
      Done (acc + v * 2 ^ shift, len pre + len (varint_groups k v)).
Proof.
  intros Hwrap. induction k as [|k IH];
    intros fuel v shift acc pre post Hfuel Hk Hv Hs Hacc Hsum Hnz; [lia|].
  destruct fuel as [|fuel]; [lia|].
  assert (0 < 2 ^ shift) as Hpow by (apply Z.pow_pos_nonneg; lia).
  assert (shift < 64) as Hs64 by (apply (shift_below_64 v); [lia|assumption|nia]).
  cbn [readVarint_loop varint_groups].
  destruct (shift >=? 64) eqn:E64; [rewrite Z.geb_leb in E64; apply Z.leb_le in E64; lia|].
  destruct (v >=? 128) eqn:E.
  - rewrite Z.geb_leb in E. apply Z.leb_le in E.
    set (b := v mod 128 + 128).
    change (pre ++ (b :: varint_groups k (v / 128)) ++ post)
      with (pre ++ b :: (varint_groups k (v / 128) ++ post)).
    rewrite index_middle.
    destruct (len pre >=? len (pre ++ b :: varint_groups k (v / 128) ++ post)) eqn:El.
    { rewrite Z.geb_leb in El. apply Z.leb_le in El.
      rewrite len_app, len_cons in El.
      pose proof (len_nonneg (varint_groups k (v / 128) ++ post)). lia. }
    pose proof (Z.mod_pos_bound v 128 ltac:(lia)) as Hm.
    assert (Z.land b 127 = v mod 128) as Hland.
    { rewrite land_127 by (unfold b; lia). unfold b.
      replace (v mod 128 + 128) with (v mod 128 + 1 * 128) by lia.
      rewrite Z.mod_add by lia. apply Z.mod_mod. lia. }
    rewrite Hland.
    assert (v = 128 * (v / 128) + v mod 128) as Hdiv by (apply Z.div_mod; lia).
    assert (1 <= v / 128) as Hq by (apply Z.div_le_lower_bound; lia).
    rewrite Z.shiftl_mul_pow2 by lia.
    rewrite Hwrap by nia.
    rewrite <- (Z.shiftl_mul_pow2 (v mod 128) shift) by lia.
    rewrite lor_disjoint by lia.
    destruct (b <? 128) eqn:Eb; [apply Z.ltb_lt in Eb; unfold b in Eb; lia|].
    destruct k as [|k'].
    { simpl in Hv. lia. }
    replace (len pre + 1) with (len (pre ++ [b])) by (rewrite len_app; reflexivity).
    replace (pre ++ b :: varint_groups (S k') (v / 128) ++ post)
      with ((pre ++ [b]) ++ varint_groups (S k') (v / 128) ++ post)
      by (rewrite <- app_assoc; reflexivity).
    assert (2 ^ (shift + 7) = 2 ^ shift * 128) as Hp7
      by (rewrite Z.pow_add_r by lia; reflexivity).
    assert (0 <= v / 128 < 2 ^ (7 * Z.of_nat (S k'))) as Hv'.
    { split; [lia|]. apply Z.div_lt_upper_bound; [lia|].
      replace (7 * Z.of_nat (S (S k'))) with (7 + 7 * Z.of_nat (S k')) in Hv by lia.
      rewrite Z.pow_add_r in Hv by lia. lia. }
    rewrite IH; [|lia|lia|exact Hv'|lia|rewrite Hp7; nia|rewrite Hp7; nia|lia].
    f_equal. f_equal; [rewrite Hp7; nia|].
    rewrite len_app, !len_cons. change (len []) with 0. lia.
  - rewrite Z.geb_leb in E. apply Z.leb_gt in E.
    change (pre ++ [v] ++ post) with (pre ++ v :: post).
    rewrite index_middle.
    destruct (len pre >=? len (pre ++ v :: post)) eqn:El.
    { rewrite Z.geb_leb in El. apply Z.leb_le in El.
      rewrite len_app, len_cons in El. pose proof (len_nonneg post). lia. }
    rewrite land_127 by lia. rewrite (Z.mod_small v 128) by lia.
    rewrite Z.shiftl_mul_pow2 by lia.
    rewrite Hwrap by nia.
    rewrite <- (Z.shiftl_mul_pow2 v shift) by lia.
    rewrite lor_disjoint by lia.
    destruct (v <? 128) eqn:Eb; [|apply Z.ltb_ge in Eb; lia].
    rewrite ?Z.shiftl_mul_pow2 by lia. reflexivity.
Qed.

Lemma wrap64_small z : 0 <= z < 2 ^ 63 -> Int.wrap64 z = z.
Proof.
  intros Hz. unfold Int.wrap64, Int.two63, Int.two64.
  rewrite Z.mod_small; lia.
Qed.

Lemma wrapu64_small63 z : 0 <= z < 2 ^ 63 -> Int.wrapu64 z = z.
Proof. intros Hz. apply wrapu64_small. lia. Qed.

Lemma readVarint_spec wrap v pre post :
  (forall z, 0 <= z < 2 ^ 63 -> wrap z = z) ->
  0 <= v < 2 ^ 63 ->
  readVarint wrap (pre ++ varint v ++ post) (len pre) = Done (v, len pre + sovTypes v).
Proof.
  intros Hwrap Hv. unfold readVarint, varint.
  rewrite (readVarint_loop_spec wrap Hwrap 10 11 v 0 0 pre post);
    [|lia|lia|apply varint_bound; lia|lia|lia|lia|lia].
  f_equal. f_equal; [lia|]. f_equal. apply len_varint. lia.
Qed.

(** A tag below 128 is one byte. *)
Lemma readVarint_tag tag pre post :
  0 <= tag < 128 ->
  readVarint Int.wrapu64 (pre ++ tag :: post) (len pre) = Done (tag, len pre + 1).
Proof.
  intros Ht.
  pose proof (readVarint_spec Int.wrapu64 tag pre post wrapu64_small63 ltac:(lia)) as Hr.
  assert (varint tag = [tag]) as Hv.
  { unfold varint. cbn [varint_groups].
    destruct (tag >=? 128) eqn:E; [rewrite Z.geb_leb in E; apply Z.leb_le in E; lia|].
    reflexivity. }
  rewrite Hv, sovTypes_small in Hr by lia. exact Hr.
Qed.

Lemma slice_middle (a payload post : bytes) :
  slice (a ++ payload ++ post) (len a) (len a + len payload) = payload.
Proof.
  unfold slice. rewrite to_nat_len, drop_app_length.
  replace (len a + len payload - len a) with (len payload) by lia.
  rewrite to_nat_len, take_app_length. reflexivity.
Qed.

(** The length of a field and the bounds of its message. *)
Lemma read_length_spec pre payload post :
  len (pre ++ varint (len payload) ++ payload ++ post) < 2 ^ 63 ->
  read_length (pre ++ varint (len payload) ++ payload ++ post) (len pre) =
    Done (len (pre ++ varint (len payload)),
          len (pre ++ varint (len payload)) + len payload).
Proof.
  intros Hb. unfold read_length.
  pose proof (len_nonneg pre). pose proof (len_nonneg payload).
  pose proof (len_nonneg post). pose proof (len_nonneg (varint (len payload))).
  rewrite !len_app in Hb.
  rewrite (readVarint_spec Int.wrap64) by (try apply wrap64_small; lia).
  cbn [res_bind].
  rewrite <- len_varint by lia.
  destruct (len payload <? 0) eqn:E1; [apply Z.ltb_lt in E1; lia|].
  rewrite wrap64_small by lia.
  destruct (len pre + len (varint (len payload)) + len payload <? 0) eqn:E2;
    [apply Z.ltb_lt in E2; lia|].
  rewrite !len_app.
  destruct (len pre + len (varint (len payload)) + len payload >?
            len pre + (len (varint (len payload)) + (len payload + len post))) eqn:E3.
  { rewrite Z.gtb_ltb in E3. apply Z.ltb_lt in E3. lia. }
  reflexivity.
Qed.

(** What the generated code reads at a field that holds a message: the
    tag, then the bounds of the message, which is the payload, and the
    index after it. *)
Lemma field_header tag pre payload post :
  0 <= tag < 128 ->
  len (pre ++ field_bytes tag payload ++ post) < 2 ^ 63 ->
  let data := pre ++ field_bytes tag payload ++ post in
  (len pre <? len data) = true /\
  readVarint Int.wrapu64 data (len pre) = Done (tag, len pre + 1) /\
  exists i j,
    read_length data (len pre + 1) = Done (i, j) /\
    slice data i j = payload /\
    j = len (pre ++ field_bytes tag payload).
Proof.
  intros Ht Hb data.
  assert (data = pre ++ tag :: (varint (len payload) ++ payload ++ post)) as E1.
  { unfold data, field_bytes. rewrite <- app_comm_cons, <- app_assoc. reflexivity. }
  assert (data = (pre ++ [tag]) ++ varint (len payload) ++ payload ++ post) as E2.
  { rewrite E1, <- app_assoc. reflexivity. }
  assert (data = ((pre ++ [tag]) ++ varint (len payload)) ++ payload ++ post) as E3.
  { rewrite E2, <- !app_assoc. reflexivity. }
  fold data in Hb.
  split; [|split].
  - apply Z.ltb_lt. rewrite E1, len_app, len_cons.
    pose proof (len_nonneg (varint (len payload) ++ payload ++ post)). lia.
  - rewrite E1. apply readVarint_tag. exact Ht.
  - exists (len ((pre ++ [tag]) ++ varint (len payload))),
      (len ((pre ++ [tag]) ++ varint (len payload)) + len payload).
    replace (len pre + 1) with (len (pre ++ [tag])) by (rewrite len_app; reflexivity).
    split; [|split].
    + rewrite E2. apply read_length_spec. rewrite <- E2. exact Hb.
    + rewrite E3. apply slice_middle.
    + unfold field_bytes. rewrite !len_app, !len_cons, !len_app. change (len []) with 0. lia.
Qed.

Section UnmarshalFacts.
Context `{Imported}.

Lemma BlockResponse_loop_end fuel m (d : bytes) :
  BlockResponse_Unmarshal_loop (S fuel) m d (len d) = Done m.
Proof.
  cbn [BlockResponse_Unmarshal_loop]. rewrite Z.ltb_irrefl. cbn [negb].
  rewrite Z.gtb_ltb, Z.ltb_irrefl. reflexivity.
Qed.

Lemma BlockResponse_loop_Block fuel m pre payload post :
  len (pre ++ field_bytes 10 payload ++ post) < 2 ^ 63 ->
  BlockResponse_Unmarshal_loop (S fuel) m (pre ++ field_bytes 10 payload ++ post) (len pre) =
    (v <-- inner_Unmarshal v3_Block (default (zero v3_Block) (BR_Block m)) payload ;;
     BlockResponse_Unmarshal_loop fuel
       {| BR_Block := Some v; BR_ExtCommit := BR_ExtCommit m |}
       (pre ++ field_bytes 10 payload ++ post) (len (pre ++ field_bytes 10 payload))).
Proof.
  intros Hb.
  destruct (field_header 10 pre payload post ltac:(lia) Hb)
    as (Hlt & Htag & i & j & Hlen & Hslice & Hj).
  cbn [BlockResponse_Unmarshal_loop].
  rewrite Hlt. cbn [negb]. rewrite Htag. cbn [res_bind].
  change (int32 (Z.shiftr 10 3)) with 1. change (Z.land 10 7) with 2.
  change (2 =? 4) with false. change (1 <=? 0) with false.
  change (1 =? 1) with true. change (2 =? 2) with true. cbn [negb].
  rewrite Hlen. cbn [res_bind]. rewrite Hslice, Hj. reflexivity.
Qed.

Lemma BlockResponse_loop_ExtCommit fuel m pre payload post :
  len (pre ++ field_bytes 18 payload ++ post) < 2 ^ 63 ->
  BlockResponse_Unmarshal_loop (S fuel) m (pre ++ field_bytes 18 payload ++ post) (len pre) =
    (v <-- inner_Unmarshal v3_ExtendedCommit
             (default (zero v3_ExtendedCommit) (BR_ExtCommit m)) payload ;;
     BlockResponse_Unmarshal_loop fuel
       {| BR_Block := BR_Block m; BR_ExtCommit := Some v |}
       (pre ++ field_bytes 18 payload ++ post) (len (pre ++ field_bytes 18 payload))).
Proof.
  intros Hb.
  destruct (field_header 18 pre payload post ltac:(lia) Hb)
    as (Hlt & Htag & i & j & Hlen & Hslice & Hj).
  cbn [BlockResponse_Unmarshal_loop].
  rewrite Hlt. cbn [negb]. rewrite Htag. cbn [res_bind].
  change (int32 (Z.shiftr 18 3)) with 2. change (Z.land 18 7) with 2.
  change (2 =? 4) with false. change (2 <=? 0) with false.
  change (2 =? 1) with false. change (2 =? 2) with true. cbn [negb].
  rewrite Hlen. cbn [res_bind]. rewrite Hslice, Hj. reflexivity.
Qed.

Lemma inner_Unmarshal_ok c x :
  codec_ok c -> inner_Unmarshal c (zero c) (encoding c x) = Done x.
Proof. intros Hc. unfold inner_Unmarshal. rewrite Hc. reflexivity. Qed.

Lemma field_bytes_length_ge tag payload : (2 <= length (field_bytes tag payload))%nat.
Proof.
  unfold field_bytes, varint. cbn [varint_groups length].
  destruct (len payload >=? 128); simpl; lia.
Qed.

(** A block response is read back from its wire format. *)
Lemma BlockResponse_Unmarshal_spec x :
  codec_ok v3_Block -> codec_ok v3_ExtendedCommit ->
  len (BlockResponse_bytes x) < 2 ^ 63 ->
  BlockResponse_Unmarshal {| BR_Block := None; BR_ExtCommit := None |}
    (BlockResponse_bytes x) = Done x.
Proof.
  intros Hcb Hcc. unfold BlockResponse_Unmarshal, BlockResponse_bytes.
  destruct x as [[b|] [c|]]; cbn [BR_Block BR_ExtCommit]; intros Hb.
  - pose proof (field_bytes_length_ge 10 (encoding v3_Block b)) as Lb.
    pose proof (field_bytes_length_ge 18 (encoding v3_ExtendedCommit c)) as Lc.
    destruct (length (field_bytes 10 (encoding v3_Block b) ++
                      field_bytes 18 (encoding v3_ExtendedCommit c)))
      as [|[|fuel]] eqn:El;
      [rewrite length_app in El; lia|rewrite length_app in El; lia|].
    pose proof (BlockResponse_loop_Block (S (S fuel))
                  {| BR_Block := None; BR_ExtCommit := None |} []
                  (encoding v3_Block b)
                  (field_bytes 18 (encoding v3_ExtendedCommit c)) Hb) as Hstep1.
    cbn [app BR_Block BR_ExtCommit default] in Hstep1.
    change (len []) with 0 in Hstep1.
    rewrite Hstep1, (inner_Unmarshal_ok _ _ Hcb). cbn [res_bind].
    pose proof (BlockResponse_loop_ExtCommit (S fuel)
                  {| BR_Block := Some b; BR_ExtCommit := None |}
                  (field_bytes 10 (encoding v3_Block b))
                  (encoding v3_ExtendedCommit c) []) as Hstep2.
    rewrite app_nil_r in Hstep2. specialize (Hstep2 Hb).
    cbn [BR_Block BR_ExtCommit default] in Hstep2.
    rewrite Hstep2, (inner_Unmarshal_ok _ _ Hcc). cbn [res_bind].
    apply BlockResponse_loop_end.
  - rewrite app_nil_r in *.
    pose proof (field_bytes_length_ge 10 (encoding v3_Block b)) as Lb.
    destruct (length (field_bytes 10 (encoding v3_Block b))) as [|[|fuel]] eqn:El;
      [lia|lia|].
    pose proof (BlockResponse_loop_Block (S (S fuel))
                  {| BR_Block := None; BR_ExtCommit := None |} []
                  (encoding v3_Block b) []) as Hstep1.
    rewrite app_nil_r in Hstep1. specialize (Hstep1 Hb).
    cbn [app BR_Block BR_ExtCommit default] in Hstep1.
    change (len []) with 0 in Hstep1.
    rewrite Hstep1, (inner_Unmarshal_ok _ _ Hcb). cbn [res_bind].
    apply BlockResponse_loop_end.
  - cbn [app] in *.
    pose proof (field_bytes_length_ge 18 (encoding v3_ExtendedCommit c)) as Lc.
    destruct (length (field_bytes 18 (encoding v3_ExtendedCommit c)))
      as [|[|fuel]] eqn:El; [lia|lia|].
    pose proof (BlockResponse_loop_ExtCommit (S (S fuel))
                  {| BR_Block := None; BR_ExtCommit := None |} []
                  (encoding v3_ExtendedCommit c) []) as Hstep1.
    rewrite app_nil_r in Hstep1. specialize (Hstep1 Hb).
    cbn [app BR_Block BR_ExtCommit default] in Hstep1.
    change (len []) with 0 in Hstep1.
    rewrite Hstep1, (inner_Unmarshal_ok _ _ Hcc). cbn [res_bind].
    apply BlockResponse_loop_end.
  - reflexivity.
Qed.

Lemma Message_loop_end fuel m (d : bytes) :
  Message_Unmarshal_loop (S fuel) m d (len d) = Done m.
Proof.
  cbn [Message_Unmarshal_loop]. rewrite Z.ltb_irrefl. cbn [negb].
  rewrite Z.gtb_ltb, Z.ltb_irrefl. reflexivity.
Qed.

(** Comparisons of numerals in the field switch. *)
Ltac decide_numerals :=
  repeat match goal with
         | |- context [Z.eqb (Zpos ?a) (Zpos ?b)] =>
           let r := eval vm_compute in (Z.eqb (Zpos a) (Zpos b)) in
           change (Z.eqb (Zpos a) (Zpos b)) with r
         | |- context [Z.leb (Zpos ?a) 0] =>
           change (Z.leb (Zpos a) 0) with false
         end.

(** One field that holds a message, read by [Message.Unmarshal]. *)
Ltac read_one_field tag Hb Hdec :=
  unfold Message_Unmarshal;
  let L := fresh "L" in
  pose proof (field_bytes_length_ge tag) as L;
  match goal with
  | |- context [field_bytes tag ?payload] =>
    specialize (L payload);
    let Hh := fresh "Hh" in
    pose proof (field_header tag [] payload []) as Hh;
    rewrite app_nil_r in Hh; cbn [app] in Hh; change (len []) with 0 in Hh;
    destruct (Hh ltac:(lia) Hb) as (Hlt & Htag & i & j & Hlen & Hslice & Hj);
    destruct (length (field_bytes tag payload)) as [|fuel]; [lia|];
    cbn [Message_Unmarshal_loop];
    rewrite Hlt; cbn [negb]; rewrite Htag; cbn [res_bind];
    let fn := eval vm_compute in (int32 (Z.shiftr tag 3)) in
    change (int32 (Z.shiftr tag 3)) with fn;
    change (Z.land tag 7) with 2;
    decide_numerals; cbn [negb];
    rewrite Hlen; cbn [res_bind];
    rewrite Hslice, Hdec; cbn [res_bind];
    rewrite Hj; apply Message_loop_end
  end.

Lemma Message_Unmarshal_BlockRequest m0 x :
  codec_ok v1_BlockRequest ->
  len (field_bytes 10 (encoding v1_BlockRequest x)) < 2 ^ 63 ->
  Message_Unmarshal m0 (field_bytes 10 (encoding v1_BlockRequest x)) =
    Done {| Sum := Some (Message_BlockRequest (Some x)) |}.
Proof.
  intros Hc Hb. pose proof (inner_Unmarshal_ok _ x Hc) as Hdec.
  read_one_field 10 Hb Hdec.
Qed.

Lemma Message_Unmarshal_NoBlockResponse m0 x :
  codec_ok v1_NoBlockResponse ->
  len (field_bytes 18 (encoding v1_NoBlockResponse x)) < 2 ^ 63 ->
  Message_Unmarshal m0 (field_bytes 18 (encoding v1_NoBlockResponse x)) =
    Done {| Sum := Some (Message_NoBlockResponse (Some x)) |}.
Proof.
  intros Hc Hb. pose proof (inner_Unmarshal_ok _ x Hc) as Hdec.
  read_one_field 18 Hb Hdec.
Qed.

Lemma Message_Unmarshal_BlockResponse m0 x :
  codec_ok v3_Block -> codec_ok v3_ExtendedCommit ->
  len (field_bytes 26 (BlockResponse_bytes x)) < 2 ^ 63 ->
  Message_Unmarshal m0 (field_bytes 26 (BlockResponse_bytes x)) =
    Done {| Sum := Some (Message_BlockResponse (Some x)) |}.
Proof.
  intros Hcb Hcc Hb.
  assert (len (BlockResponse_bytes x) < 2 ^ 63) as Hx.
  { unfold field_bytes in Hb. rewrite len_cons, len_app in Hb.
    pose proof (len_nonneg (varint (len (BlockResponse_bytes x)))). lia. }
  pose proof (BlockResponse_Unmarshal_spec x Hcb Hcc Hx) as Hdec.
  read_one_field 26 Hb Hdec.
Qed.

Lemma Message_Unmarshal_StatusRequest m0 x :
  codec_ok v1_StatusRequest ->
  len (field_bytes 34 (encoding v1_StatusRequest x)) < 2 ^ 63 ->
  Message_Unmarshal m0 (field_bytes 34 (encoding v1_StatusRequest x)) =
    Done {| Sum := Some (Message_StatusRequest (Some x)) |}.
Proof.
  intros Hc Hb. pose proof (inner_Unmarshal_ok _ x Hc) as Hdec.
  read_one_field 34 Hb Hdec.
Qed.

Lemma Message_Unmarshal_StatusResponse m0 x :
  codec_ok v1_StatusResponse ->
  len (field_bytes 42 (encoding v1_StatusResponse x)) < 2 ^ 63 ->
  Message_Unmarshal m0 (field_bytes 42 (encoding v1_StatusResponse x)) =
    Done {| Sum := Some (Message_StatusResponse (Some x)) |}.
Proof.
  intros Hc Hb. pose proof (inner_Unmarshal_ok _ x Hc) as Hdec.
  read_one_field 42 Hb Hdec.
Qed.

End UnmarshalFacts.

Section RoundTrip.
Context `{Imported}.

(** C8, as amended.  For a message that fits in a Go slice, the message
    types of the other packages being read back from their own
    encodings: [Marshal] succeeds and the length of the buffer it
    returns is [Size]; and when the [Sum] of the message is one of the
    five wrappers and the wrapper holds a message (its pointer is not
    nil), [Unmarshal] of that buffer, into any receiver, succeeds and
    leaves the receiver equal to the message.  The fields are written
    under the tags 1 to 5 ([0xa], [0x12], [0x1a], [0x22], [0x2a]). *)
Theorem Message_roundtrip m :
  Imported_ok ->
  Message_Size m <= Int.MaxInt64 ->
  exists dAtA,
    Message_Marshal m = Done dAtA /\
    dAtA = Message_bytes m /\
    len dAtA = Message_Size m /\
    forall s, Sum m = Some s -> inner_present s ->
      forall m0, Message_Unmarshal m0 dAtA = Done m.
Proof.
  intros (Hc1 & Hc2 & Hc3 & Hc4 & Hcb & Hcc) Hsize.
  assert (Message_Size m < 2 ^ 63) as H63
    by (unfold Int.MaxInt64, Int.two63 in Hsize; lia).
  destruct (Message_Marshal_spec m ltac:(lia)) as [Hm Hlen].
  exists (Message_bytes m). repeat split; try assumption.
  intros s Hs Hpresent m0.
  destruct m as [sum]. cbn [Sum] in Hs. subst sum.
  unfold Message_bytes in *. cbn [Sum] in *.
  rewrite <- Hlen in H63.
  destruct s as [[x|]|[x|]|[x|]|[x|]|[x|]]; cbn [Sum_bytes inner_present] in *;
    try congruence.
  - apply Message_Unmarshal_BlockRequest; assumption.
  - apply Message_Unmarshal_NoBlockResponse; assumption.
  - apply Message_Unmarshal_BlockResponse; assumption.
  - apply Message_Unmarshal_StatusRequest; assumption.
  - apply Message_Unmarshal_StatusResponse; assumption.
Qed.

End RoundTrip.

End WireFacts.

Lemma SampleWire_ok : Wire.Imported_ok (H := SampleWire.imported).
Proof. repeat split; intros x; reflexivity. Qed.

(** The block request of the sample data is marshalled to four bytes,
    the field tag 1 first, and read back. *)
Lemma Message_roundtrip_witness :
  Wire.Message_Marshal SampleWire.request = Wire.Done [10; 2; 8; 5] /\
  Wire.Message_Size SampleWire.request = 4 /\
  Wire.Message_Unmarshal SampleWire.fresh [10; 2; 8; 5] = Wire.Done SampleWire.request.
Proof.
  destruct (WireFacts.Message_roundtrip SampleWire.request SampleWire_ok
              ltac:(vm_compute; discriminate))
    as (dAtA & Hm & Hbytes & Hlen & Hback).
  change (Wire.Message_bytes SampleWire.request) with [10; 2; 8; 5] in Hbytes.
  subst dAtA. split; [exact Hm|]. split; [reflexivity|].
  apply (Hback _ eq_refl). discriminate.
Defined.

(** C8 fails as stated.  A message whose [Sum] is the [BlockRequest]
    wrapper with a nil pointer is marshalled to the empty buffer, and
    [Unmarshal] of it into a fresh message succeeds and leaves [Sum]
    nil: the message read is not the original. *)
Lemma Message_roundtrip_counterexample :
  Wire.Sum SampleWire.nil_request = Some (Wire.Message_BlockRequest None) /\
  Wire.Message_Marshal SampleWire.nil_request = Wire.Done [] /\
  Wire.Message_Unmarshal SampleWire.fresh [] = Wire.Done SampleWire.fresh /\
  SampleWire.fresh <> SampleWire.nil_request.
Proof. repeat split; try reflexivity. discriminate. Qed.
